(** * MazeRunner: maze generation, traversal and fog of war

    A shallow embedding of the maze logic of the MazeRunner game component
    (generateMaze, isInFog, movePlayer) together with the proofs of its
    structural properties: the carved maze is a spanning tree of the grid,
    braiding only opens walls, walls are always opened in matched pairs,
    border walls are never opened, and the move validator only lets the
    player through open walls.

    The last part follows a game to its end: the keyboard and touch
    handlers and the game loop of the component, the stars the game shell
    (handleComplete, nextLevel) awards for a win, and the level progress
    completeLevel stores. *)

From stdpp Require Import base numbers list relations gmap strings.
From Stdlib Require Import ZArith Lia.

Local Open Scope Z_scope.

(** ** Data model *)

(** The four keys of [Cell.walls], in the insertion order of the object
    literal [{ top, right, bottom, left }] (the order of [Object.keys]). *)
Inductive Dir := Top | Right | Bottom | Left.

#[global] Instance Dir_eq_dec : EqDecision Dir.
Proof. solve_decision. Defined.

(** [Cell.walls]. The fields are prefixed because [left] and [right] are
    taken in Rocq. *)
Record Walls := mkWalls {
  w_top : bool;
  w_right : bool;
  w_bottom : bool;
  w_left : bool
}.

(** [interface Cell]. *)
Record Cell := mkCell {
  cell_x : Z;
  cell_y : Z;
  walls : Walls;
  visited : bool
}.

(** [interface Position]. A position is also what a reference to a cell of
    the grid is modelled by: the reference to the object stored at
    [grid[y][x]] is the position [(x, y)]. *)
Record Position := mkPos {
  pos_x : Z;
  pos_y : Z
}.

#[global] Instance Position_eq_dec : EqDecision Position.
Proof. solve_decision. Defined.

(** [Cell[][]]: a list of rows. *)
Abbreviation Grid := (list (list Cell)).

Inductive Difficulty := Easy | Hard | Insane.

(** [w[dir]] for a key [dir] of the walls object. *)
Definition walls_get (w : Walls) (d : Dir) : bool :=
  match d with
  | Top => w_top w
  | Right => w_right w
  | Bottom => w_bottom w
  | Left => w_left w
  end.

(** [w[dir] = b]. *)
Definition walls_set (w : Walls) (d : Dir) (b : bool) : Walls :=
  match d with
  | Top => mkWalls b (w_right w) (w_bottom w) (w_left w)
  | Right => mkWalls (w_top w) b (w_bottom w) (w_left w)
  | Bottom => mkWalls (w_top w) (w_right w) b (w_left w)
  | Left => mkWalls (w_top w) (w_right w) (w_bottom w) b
  end.

(** The table [directions] (and [dirMap] of the braiding pass, which holds
    the same entries): [dx], [dy] and [opposite] of each direction. *)
Definition directions : list Dir := [Top; Right; Bottom; Left].

Definition dx (d : Dir) : Z :=
  match d with Top => 0 | Right => 1 | Bottom => 0 | Left => -1 end.

Definition dy (d : Dir) : Z :=
  match d with Top => -1 | Right => 0 | Bottom => 1 | Left => 0 end.

Definition opposite (d : Dir) : Dir :=
  match d with Top => Bottom | Right => Left | Bottom => Top | Left => Right end.

(** The cell next to [p] in direction [d]. *)
Definition neighbor (p : Position) (d : Dir) : Position :=
  mkPos (pos_x p + dx d) (pos_y p + dy d).

(** ** Results

    Reading a property of [undefined] throws a [TypeError]; the loops of
    the generator are run with fuel. *)
Inductive result (A : Type) : Type :=
  | Ok (a : A)
  | TypeError
  | OutOfFuel.

Arguments Ok {A} a.
Arguments TypeError {A}.
Arguments OutOfFuel {A}.

#[global] Instance result_ret : MRet result := λ A a, Ok a.
#[global] Instance result_bind : MBind result := λ A B f r,
  match r with
  | Ok a => f a
  | TypeError => TypeError
  | OutOfFuel => OutOfFuel
  end.

(** ** Randomness

    [Math.random()] is an unseeded global generator. It is modelled by an
    arbitrary stream of raw draws; [Math.floor(Math.random() * n)], an
    integer in [[0, n)], is the next draw reduced modulo [n]. *)
Definition Rng := nat → nat.

Definition randInt (n : nat) (rng : Rng) : nat * Rng :=
  (match n with O => O | S _ => (rng O `mod` n)%nat end, λ i, rng (S i)).

(** ** Grid access *)

(** [grid[y]] and [row[x]], [None] standing for [undefined] (a negative or
    too large index). *)
Definition row_at (g : Grid) (y : Z) : option (list Cell) :=
  if bool_decide (0 ≤ y) then g !! Z.to_nat y else None.

Definition col_at (row : list Cell) (x : Z) : option Cell :=
  if bool_decide (0 ≤ x) then row !! Z.to_nat x else None.

(** [grid[y][x]] as far as it can be read: [None] when the row or the cell
    is [undefined]. *)
Definition cell_at (g : Grid) (p : Position) : option Cell :=
  row ← row_at g (pos_y p); col_at row (pos_x p).

(** Dereferencing a cell reference in order to read one of its fields. *)
Definition deref (g : Grid) (p : Position) : result Cell :=
  match cell_at g p with
  | Some c => Ok c
  | None => TypeError
  end.

(** An in-place update of the object referenced by [p]. *)
Definition update_cell (g : Grid) (p : Position) (f : Cell → Cell) : result Grid :=
  match cell_at g p with
  | Some _ => Ok (alter (alter f (Z.to_nat (pos_x p))) (Z.to_nat (pos_y p)) g)
  | None => TypeError
  end.

(** [cell.walls[d] = b]. *)
Definition set_wall (g : Grid) (p : Position) (d : Dir) (b : bool) : result Grid :=
  update_cell g p (λ c, mkCell (cell_x c) (cell_y c) (walls_set (walls c) d b) (visited c)).

(** [cell.visited = true]. *)
Definition mark_visited (g : Grid) (p : Position) : result Grid :=
  update_cell g p (λ c, mkCell (cell_x c) (cell_y c) (walls c) true).

(** ** generateMaze *)

(** The grid builder: the two nested [for] loops. *)
Definition initGrid (size : Z) : Grid :=
  (λ y, (λ x, mkCell x y (mkWalls true true true true) false) <$> seqZ 0 size)
    <$> seqZ 0 size.

(** [nx >= 0 && nx < size && ny >= 0 && ny < size]. *)
Definition in_grid (size : Z) (nx ny : Z) : bool :=
  (0 <=? nx) && (nx <? size) && (0 <=? ny) && (ny <? size).

(** The state of the carving loop. The stack holds references to cells of
    the grid, its top at the head of the list. The last three fields are
    ghost: the number of [stack.push] and [stack.pop] calls so far, and the
    cells whose [visited] flag has been set, latest first. *)
Record CarveState := mkCarve {
  cs_grid : Grid;
  cs_stack : list Position;
  cs_rng : Rng;
  cs_pushes : nat;
  cs_pops : nat;
  cs_marked : list Position
}.

(** The [for (const { dx, dy, dir, opposite } of directions)] loop that
    collects the unvisited neighbours of [current]. *)
Fixpoint scan_neighbors (size : Z) (g : Grid) (current : Cell) (ds : list Dir)
  : result (list (Position * Dir)) :=
  match ds with
  | [] => Ok []
  | d :: ds' =>
      let nx := cell_x current + dx d in
      let ny := cell_y current + dy d in
      if in_grid size nx ny then
        n ← deref g (mkPos nx ny);
        rest ← scan_neighbors size g current ds';
        Ok (if visited n then rest else (mkPos nx ny, d) :: rest)
      else scan_neighbors size g current ds'
  end.

(** The statements before the [while] loop. *)
Definition carve_init (g : Grid) (rng : Rng) : result CarveState :=
  let startCell := mkPos 0 0 in
  g' ← mark_visited g startCell;
  Ok (mkCarve g' [startCell] rng 1 0 [startCell]).

(** One iteration of the [while (stack.length > 0)] loop. *)
Definition carve_step (size : Z) (st : CarveState) : result CarveState :=
  match cs_stack st with
  | [] => Ok st
  | current :: below =>
      c ← deref (cs_grid st) current;
      neighbors ← scan_neighbors size (cs_grid st) c directions;
      match neighbors with
      | _ :: _ =>
          let '(i, rng') := randInt (length neighbors) (cs_rng st) in
          match neighbors !! i with
          | Some (next, direction) =>
              let oppositeDir := opposite direction in
              g1 ← set_wall (cs_grid st) current direction false;
              g2 ← set_wall g1 next oppositeDir false;
              g3 ← mark_visited g2 next;
              Ok (mkCarve g3 (next :: current :: below) rng'
                    (S (cs_pushes st)) (cs_pops st) (next :: cs_marked st))
          | None => TypeError
          end
      | [] =>
          Ok (mkCarve (cs_grid st) below (cs_rng st)
                (cs_pushes st) (S (cs_pops st)) (cs_marked st))
      end
  end.

(** The first [n] iterations of the loop (fewer when the stack empties
    earlier). *)
Fixpoint carve_steps (n : nat) (size : Z) (st : CarveState) : result CarveState :=
  match n with
  | O => Ok st
  | S n' =>
      match cs_stack st with
      | [] => Ok st
      | _ :: _ => st' ← carve_step size st; carve_steps n' size st'
      end
  end.

(** The whole loop: it has to have emptied the stack within [fuel]
    iterations. *)
Definition carve_loop (fuel : nat) (size : Z) (st : CarveState) : result CarveState :=
  st' ← carve_steps fuel size st;
  match cs_stack st' with
  | [] => Ok st'
  | _ :: _ => OutOfFuel
  end.

(** [Math.floor(size * size * 0.05)]. *)
Definition extraPaths (size : Z) : nat := Z.to_nat (size * size / 20).

(** One iteration of the braiding loop of hard mode. The loop is only
    reached with a [size] of at least one (the carving phase throws
    otherwise), for which [Math.floor(Math.random() * size)] is an index in
    [[0, size)]. *)
Definition braid_step (size : Z) (s : Grid * Rng) : result (Grid * Rng) :=
  let '(g, rng) := s in
  let '(xi, rng1) := randInt (Z.to_nat size) rng in
  let '(yi, rng2) := randInt (Z.to_nat size) rng1 in
  let x := Z.of_nat xi in
  let y := Z.of_nat yi in
  cell ← deref g (mkPos x y);
  let wallDirs := List.filter (walls_get (walls cell)) directions in
  match wallDirs with
  | _ :: _ =>
      let '(i, rng3) := randInt (length wallDirs) rng2 in
      match wallDirs !! i with
      | Some dir =>
          let nx := x + dx dir in
          let ny := y + dy dir in
          if in_grid size nx ny then
            g1 ← set_wall g (mkPos x y) dir false;
            g2 ← set_wall g1 (mkPos nx ny) (opposite dir) false;
            Ok (g2, rng3)
          else Ok (g, rng3)
      | None => TypeError
      end
  | [] => Ok (g, rng2)
  end.

(** [k] iterations of the braiding loop. *)
Fixpoint braid_steps (k : nat) (size : Z) (s : Grid * Rng) : result (Grid * Rng) :=
  match k with
  | O => Ok s
  | S k' => s' ← braid_step size s; braid_steps k' size s'
  end.

(** The carving phase of [generateMaze]: grid builder and backtracker. *)
Definition carve (fuel : nat) (size : Z) (rng : Rng) : result CarveState :=
  st0 ← carve_init (initGrid size) rng;
  carve_loop fuel size st0.

Definition generateMaze (fuel : nat) (difficulty : Difficulty) (size : Z) (rng : Rng)
  : result Grid :=
  st ← carve fuel size rng;
  match difficulty with
  | Hard =>
      s ← braid_steps (extraPaths size) size (cs_grid st, cs_rng st);
      Ok (fst s)
  | _ => Ok (cs_grid st)
  end.

(** ** Game configuration and state *)

(** [config.fogRadius]: a number or [Infinity]. *)
Inductive Radius := Finite (r : Z) | Infinity.

Record Config := mkConfig {
  size : Z;
  timeLimit : Z;
  fogRadius : Radius
}.

(** The table of difficulty settings. *)
Definition config (difficulty : Difficulty) : Config :=
  match difficulty with
  | Easy => mkConfig 11 0 Infinity
  | Hard => mkConfig 17 60 Infinity
  | Insane => mkConfig 23 40 (Finite 3)
  end.

Definition MOVE_COOLDOWN : Z := 150.

Inductive GameState := Playing | Won | Lost.

#[global] Instance GameState_eq_dec : EqDecision GameState.
Proof. solve_decision. Defined.

(** What [movePlayer] does besides updating the state: the sounds played
    and the [onComplete(score, maxScore)] call it schedules. *)
Inductive Effect :=
  | PlayClick
  | PlaySuccess
  | OnComplete (score maxScore : Z).

(** The React state and refs [movePlayer] reads and writes. A call of
    [movePlayer] is taken as one atomic transition on them. *)
Record Game := mkGame {
  gameState : GameState;
  moveCount : Z;
  playerPos : Position;
  maze : Grid;
  trail : list Position;
  lastMoveTime : Z;
  startTime : Z;
  effects : list Effect
}.

(** The state set up by the initialising effect for a fresh maze. The
    effect does not touch the [lastMoveTime] ref, which keeps the value
    [lastMove] it had (0 at first). *)
Definition newGame (g : Grid) (lastMove now : Z) : Game :=
  mkGame Playing 0 (mkPos 0 0) g [mkPos 0 0] lastMove now [].

(** ** isInFog *)

Definition isInFog (cfg : Config) (player : Position) (x y : Z) : bool :=
  match fogRadius cfg with
  | Infinity => false
  | Finite r =>
      let dx := Z.abs (x - pos_x player) in
      let dy := Z.abs (y - pos_y player) in
      (r <? dx) || (r <? dy)
  end.

(** The visibility query of the renderer: a cell is drawn when it is not in
    the fog. *)
Definition isVisible (cfg : Config) (player : Position) (c : Position) : bool :=
  negb (isInFog cfg player (pos_x c) (pos_y c)).

(** ** movePlayer *)

(** [cond && currentCell.walls.<flag>]: the cell is read only when [cond]
    holds, and reading the walls of [undefined] throws. *)
Definition blocked (cond : bool) (currentCell : option Cell) (flag : Walls → bool)
  : result bool :=
  if cond then
    match currentCell with
    | Some c => Ok (flag (walls c))
    | None => TypeError
    end
  else Ok false.

(** [now] is what the first [Date.now()] returns and [now'] what the second
    one (in the win branch) returns. *)
Definition movePlayer (cfg : Config) (st : Game) (dx dy : Z) (now now' : Z)
  : result Game :=
  if negb (bool_decide (gameState st = Playing)) || bool_decide (length (maze st) = 0%nat)
  then Ok st
  else if now - lastMoveTime st <? MOVE_COOLDOWN then Ok st
  else
    let newX := pos_x (playerPos st) + dx in
    let newY := pos_y (playerPos st) + dy in
    if (newX <? 0) || (size cfg <=? newX) || (newY <? 0) || (size cfg <=? newY)
    then Ok st
    else
      match row_at (maze st) (pos_y (playerPos st)) with
      | None => TypeError
      | Some row =>
          let currentCell := col_at row (pos_x (playerPos st)) in
          b1 ← blocked (dx =? 1) currentCell w_right;
          if b1 : bool then Ok st else
          b2 ← blocked (dx =? -1) currentCell w_left;
          if b2 : bool then Ok st else
          b3 ← blocked (dy =? 1) currentCell w_bottom;
          if b3 : bool then Ok st else
          b4 ← blocked (dy =? -1) currentCell w_top;
          if b4 : bool then Ok st else
          let moved :=
            mkGame (gameState st) (moveCount st + 1) (mkPos newX newY) (maze st)
              (trail st ++ [mkPos newX newY]) now (startTime st)
              (effects st ++ [PlayClick]) in
          if (newX =? size cfg - 1) && (newY =? size cfg - 1) then
            let maxScore := if timeLimit cfg =? 0 then 120 else timeLimit cfg in
            let score := Z.max 0 (maxScore + (- (now' - startTime st)) / 1000) in
            Ok (mkGame Won (moveCount moved) (playerPos moved) (maze moved)
                  (trail moved) (lastMoveTime moved) (startTime moved)
                  (effects moved ++ [PlaySuccess; OnComplete score maxScore]))
          else Ok moved
      end.

(** A directional input: the four calls [movePlayer(0, -1)],
    [movePlayer(1, 0)], [movePlayer(0, 1)] and [movePlayer(-1, 0)] of the
    game loop and of the touch controls. *)
Definition attemptMove (cfg : Config) (st : Game) (d : Dir) (now now' : Z)
  : result Game :=
  movePlayer cfg st (dx d) (dy d) now now'.

(** The game as a sequence of directional inputs, each with the two clock
    readings of its [movePlayer] call. *)
Fixpoint play (cfg : Config) (st : Game) (inputs : list (Dir * Z * Z))
  : result Game :=
  match inputs with
  | [] => Ok st
  | (d, now, now') :: rest =>
      st' ← attemptMove cfg st d now now'; play cfg st' rest
  end.

(** ** Specification vocabulary *)

(** [p] is a cell of the [size] by [size] grid. *)
Definition inside (size : Z) (p : Position) : Prop :=
  (0 ≤ pos_x p < size) ∧ (0 ≤ pos_y p < size).

#[global] Instance inside_dec size p : Decision (inside size p).
Proof. unfold inside. apply _. Defined.

(** The wall flag of cell [p] towards [d]; a missing cell counts as solid. *)
Definition has_wall (g : Grid) (p : Position) (d : Dir) : bool :=
  match cell_at g p with
  | Some c => walls_get (walls c) d
  | None => true
  end.

Definition is_visited (g : Grid) (p : Position) : bool :=
  match cell_at g p with
  | Some c => visited c
  | None => false
  end.

(** The wall pair between [p] and its neighbour towards [d] is open: both
    flags are cleared. *)
Definition open_pair (g : Grid) (e : Position * Dir) : bool :=
  negb (has_wall g e.1 e.2) && negb (has_wall g (neighbor e.1 e.2) (opposite e.2)).

(** The edges of the maze graph. *)
Definition linked (g : Grid) (a b : Position) : Prop :=
  ∃ d, b = neighbor a d ∧ open_pair g (a, d) = true.

(** The cells of the grid, row by row. *)
Definition all_cells (size : Z) : list Position :=
  y ← seqZ 0 size; (λ x, mkPos x y) <$> seqZ 0 size.

(** Every pair of adjacent cells once: a cell with its right and with its
    bottom neighbour. *)
Definition wall_pairs (size : Z) : list (Position * Dir) :=
  filter (λ e, inside size (neighbor e.1 e.2))
    (p ← all_cells size; [(p, Right); (p, Bottom)]).

(** The number of open wall pairs. *)
Definition openings (size : Z) (g : Grid) : nat :=
  length (filter (λ e, open_pair g e = true) (wall_pairs size)).

(** Walls agree on both sides. *)
Definition wall_symmetric (size : Z) (g : Grid) : Prop :=
  ∀ p d, inside size p → inside size (neighbor p d) →
    has_wall g p d = has_wall g (neighbor p d) (opposite d).

(** The cell at [p] exists and its wall flag towards [d] is set. *)
Definition wall_stands (g : Grid) (p : Position) (d : Dir) : Prop :=
  ∃ c, cell_at g p = Some c ∧ walls_get (walls c) d = true.

(** Every wall that faces the outside of the grid stands. *)
Definition border_walled (size : Z) (g : Grid) : Prop :=
  ∀ p d, inside size p → ¬ inside size (neighbor p d) → has_wall g p d = true.

(** The grid holds a cell with the right coordinates at every position of
    the [size] by [size] square, and nothing elsewhere. *)
Definition wf_grid (size : Z) (g : Grid) : Prop :=
  ∀ p, match cell_at g p with
       | Some c => inside size p ∧ cell_x c = pos_x p ∧ cell_y c = pos_y p
       | None => ¬ inside size p
       end.

Definition connected (size : Z) (g : Grid) : Prop :=
  ∀ a b, inside size a → inside size b → rtc (linked g) a b.

(** [walk R a b p]: [p] lists the vertices of a walk from [a] to [b] along
    [R], both ends included. *)
Inductive walk (R : relation Position) : Position → Position → list Position → Prop :=
  | walk_end a : walk R a a [a]
  | walk_step a b c p : R a b → walk R b c p → walk R a c (a :: p).

Definition simple_path (g : Grid) (a b : Position) (p : list Position) : Prop :=
  walk (linked g) a b p ∧ NoDup p.

(** No simple path of three or more cells is closed by an edge from its
    last cell back to its first one. *)
Definition acyclic (g : Grid) : Prop :=
  ∀ a b p, simple_path g a b p → (3 ≤ length p)%nat → ¬ linked g b a.

(** ** Definitions used by the proofs *)

(** [tree V R]: [R] is the edge relation of a tree on the vertices [V],
    obtained from a single vertex by hanging one new leaf at a time. *)
Inductive tree : list Position → relation Position → Prop :=
  | tree_root r R : (∀ a b, ¬ R a b) → tree [r] R
  | tree_leaf V R R' u v :
      tree V R → u ∈ V → v ∉ V →
      (∀ a b, R' a b ↔ R a b ∨ (a = u ∧ b = v) ∨ (a = v ∧ b = u)) →
      tree (v :: V) R'.

(** The same wall pair seen from the other side. *)
Definition mirror (e : Position * Dir) : Position * Dir :=
  (neighbor e.1 e.2, opposite e.2).

(** The flags of [g'] are those of [g] with the wall pair [e] cleared. *)
Definition opened_by (e : Position * Dir) (g g' : Grid) : Prop :=
  ∀ q d, has_wall g' q d =
    if decide ((q, d) = e ∨ (q, d) = mirror e) then false else has_wall g q d.

(** The one entry of [wall_pairs] that stands for the wall pair [(p, d)]. *)
Definition canonical_pair (p : Position) (d : Dir) : Position * Dir :=
  match d with
  | Right | Bottom => (p, d)
  | Top | Left => mirror (p, d)
  end.

(** [g'] has every opening of [g]. *)
Definition only_opened (g g' : Grid) : Prop :=
  ∀ q d, has_wall g q d = false → has_wall g' q d = false.

(** The loop invariant of the backtracker. *)
Record carve_inv (size : Z) (st : CarveState) : Prop := mkCarveInv {
  ci_wf : wf_grid size (cs_grid st);
  ci_marked : ∀ p, is_visited (cs_grid st) p = true ↔ p ∈ cs_marked st;
  ci_nodup : NoDup (cs_marked st);
  ci_stack : ∀ p, p ∈ cs_stack st → p ∈ cs_marked st;
  ci_done : ∀ p d, p ∈ cs_marked st → p ∉ cs_stack st →
      inside size (neighbor p d) → neighbor p d ∈ cs_marked st;
  ci_root : mkPos 0 0 ∈ cs_marked st;
  ci_pushes : cs_pushes st = length (cs_marked st);
  ci_pops : (cs_pops st + length (cs_stack st) = cs_pushes st)%nat;
  ci_tree : tree (cs_marked st) (linked (cs_grid st));
  ci_fresh : ∀ p d, is_visited (cs_grid st) p = false → has_wall (cs_grid st) p d = true;
  ci_sym : wall_symmetric size (cs_grid st);
  ci_border : border_walled size (cs_grid st);
  ci_open : (openings size (cs_grid st) + 1 = length (cs_marked st))%nat
}.

(** What is left to do: two iterations for each unvisited cell (its push and
    its pop) and one pop for each cell on the stack. *)
Definition carve_measure (size : Z) (st : CarveState) : nat :=
  (2 * (length (all_cells size) - length (cs_marked st)) + length (cs_stack st))%nat.

(** A random source for the examples. *)
Definition sample_rng : Rng := λ i, (7 * i + 3)%nat.

(** The maze generateMaze builds for size 3 from [sample_rng]. *)
Definition sample_maze : Grid :=
  Eval vm_compute in
    match generateMaze 18 Easy 3 sample_rng with
    | Ok g => g
    | _ => []
    end.

(** ** Vocabulary for the traversal *)

(** The goal cell [(config.size - 1, config.size - 1)]. *)
Definition goal (cfg : Config) : Position :=
  mkPos (size cfg - 1) (size cfg - 1).

(** [config.timeLimit || 120]. *)
Definition maxScoreOf (cfg : Config) : Z :=
  if timeLimit cfg =? 0 then 120 else timeLimit cfg.

(** The number of [onComplete] calls among the effects. *)
Definition completions (l : list Effect) : nat :=
  length (List.filter (λ e, match e with OnComplete _ _ => true | _ => false end) l).

(** The conditions under which a directional input is taken as a move. *)
Definition accepted (cfg : Config) (st : Game) (d : Dir) (now : Z) : Prop :=
  gameState st = Playing
  ∧ MOVE_COOLDOWN ≤ now - lastMoveTime st
  ∧ inside (size cfg) (neighbor (playerPos st) d)
  ∧ has_wall (maze st) (playerPos st) d = false.

#[global] Instance accepted_dec cfg st d now : Decision (accepted cfg st d now).
Proof. unfold accepted. apply _. Defined.

(** The state after a move to [p]. *)
Definition moved_to (cfg : Config) (st : Game) (p : Position) (now now' : Z) : Game :=
  if bool_decide (p = goal cfg) then
    mkGame Won (moveCount st + 1) p (maze st) (trail st ++ [p]) now (startTime st)
      (effects st ++
         [PlayClick; PlaySuccess;
          OnComplete (Z.max 0 (maxScoreOf cfg + (- (now' - startTime st)) / 1000))
            (maxScoreOf cfg)])
  else
    mkGame (gameState st) (moveCount st + 1) p (maze st) (trail st ++ [p]) now
      (startTime st) (effects st ++ [PlayClick]).

(** ** Keyboard, touch and the game loop *)

(** [String.prototype.toLowerCase], on ASCII letters. Every key name the
    handlers compare with is ASCII, and no other character lower-cases to
    one of their letters. *)
Definition lower_ascii (a : Ascii.ascii) : Ascii.ascii :=
  let n := Ascii.nat_of_ascii a in
  if (65 <=? n)%nat && (n <=? 90)%nat then Ascii.ascii_of_nat (n + 32) else a.

Fixpoint toLowerCase (s : string) : string :=
  match s with
  | String.EmptyString => String.EmptyString
  | String.String a s' => String.String (lower_ascii a) (toLowerCase s')
  end.

(** The key names [handleKeyDown] records. *)
Definition movementKeys : list string :=
  ["arrowup"; "arrowdown"; "arrowleft"; "arrowright"; "w"; "a"; "s"; "d"]%string.

(** What [handleKeyDown] does: the new [keysPressed] set, whether it calls
    [e.preventDefault()] and whether it calls [onBack()]. *)
Record KeyDown := mkKeyDown {
  kd_keys : gset string;
  kd_preventDefault : bool;
  kd_onBack : bool
}.

Definition handleKeyDown (keysPressed : gset string) (eKey : string) : KeyDown :=
  let key := toLowerCase eKey in
  let recorded := bool_decide (key ∈ movementKeys) in
  mkKeyDown (if recorded then {[key]} ∪ keysPressed else keysPressed)
    recorded (bool_decide (key = "escape"%string)).

Definition handleKeyUp (keysPressed : gset string) (eKey : string) : gset string :=
  keysPressed ∖ {[toLowerCase eKey]}.

Inductive KeyEvent := KeyDownEvent (key : string) | KeyUpEvent (key : string).

(** The [keysPressed] set after a sequence of keyboard events. *)
Definition keysAfter (keysPressed : gset string) (events : list KeyEvent) : gset string :=
  foldl (λ keys e, match e with
                   | KeyDownEvent k => kd_keys (handleKeyDown keys k)
                   | KeyUpEvent k => handleKeyUp keys k
                   end) keysPressed events.

(** The input processing of [loop]: the one [movePlayer] call of a frame. *)
Definition loopInput (keysPressed : gset string) : option Dir :=
  let has (k : string) := bool_decide (k ∈ keysPressed) in
  if has "arrowup"%string || has "w"%string then Some Top
  else if has "arrowdown"%string || has "s"%string then Some Bottom
  else if has "arrowleft"%string || has "a"%string then Some Left
  else if has "arrowright"%string || has "d"%string then Some Right
  else None.

(** [handleTouchEnd]: the [handleMobileMove] call a swipe from
    [(touchStartX, touchStartY)] to [(touchEndX, touchEndY)] leads to, if
    any. Coordinates are in whole pixels. *)
Definition swipeMove (state : GameState)
    (touchStartX touchStartY touchEndX touchEndY : Z) : option Dir :=
  if negb (bool_decide (state = Playing)) then None
  else
    let dx := touchEndX - touchStartX in
    let dy := touchEndY - touchStartY in
    if Z.abs dy <? Z.abs dx then
      if 30 <? dx then Some Right
      else if dx <? -30 then Some Left
      else None
    else
      if 30 <? dy then Some Bottom
      else if dy <? -30 then Some Top
      else None.

(** One run of [loop]: the state it leaves, the elapsed time it stores (in
    milliseconds here, [elapsed * 1000]), whether it plays the failure sound
    and whether it requests another animation frame. *)
Record Frame := mkFrame {
  fr_game : Game;
  fr_timeElapsed : Z;
  fr_playFailure : bool;
  fr_again : bool
}.

(** [setGameState(s)]. *)
Definition setGameState (s : GameState) (st : Game) : Game :=
  mkGame s (moveCount st) (playerPos st) (maze st) (trail st) (lastMoveTime st)
    (startTime st) (effects st).

(** The body of [loop], run while the game is in the playing state. [now]
    and [now'] are the clock readings of its [movePlayer] call and [clock]
    the one of its timer update. For whole milliseconds and a whole time
    limit, [elapsed >= config.timeLimit] is
    [1000 * timeLimit <= clock - startTime]. *)
Definition loop (cfg : Config) (keysPressed : gset string) (st : Game)
    (now now' clock : Z) : result Frame :=
  st1 ← match loopInput keysPressed with
        | Some d => attemptMove cfg st d now now'
        | None => Ok st
        end;
  let elapsed := clock - startTime st1 in
  if (0 <? timeLimit cfg) && (1000 * timeLimit cfg <=? elapsed)
  then Ok (mkFrame (setGameState Lost st1) elapsed true false)
  else Ok (mkFrame st1 elapsed false true).

(** ** Callbacks of an earlier render, and a whole game *)

(** [movePlayer] as created by a render in which [gameState], [maze] and
    [playerPos] were [seenState], [seenMaze] and [seenPos], called while the
    component is in state [st]: the guards and the target cell are computed
    from the values of that render, the refs are those of [st], and the
    functional updates of [setMoveCount] and [setTrail] apply to what [st]
    holds. *)
Definition movePlayerSeen (cfg : Config) (seenState : GameState) (seenMaze : Grid)
    (seenPos : Position) (st : Game) (dx dy : Z) (now now' : Z) : result Game :=
  if negb (bool_decide (seenState = Playing)) || bool_decide (length seenMaze = 0%nat)
  then Ok st
  else if now - lastMoveTime st <? MOVE_COOLDOWN then Ok st
  else
    let newX := pos_x seenPos + dx in
    let newY := pos_y seenPos + dy in
    if (newX <? 0) || (size cfg <=? newX) || (newY <? 0) || (size cfg <=? newY)
    then Ok st
    else
      match row_at seenMaze (pos_y seenPos) with
      | None => TypeError
      | Some row =>
          let currentCell := col_at row (pos_x seenPos) in
          b1 ← blocked (dx =? 1) currentCell w_right;
          if b1 : bool then Ok st else
          b2 ← blocked (dx =? -1) currentCell w_left;
          if b2 : bool then Ok st else
          b3 ← blocked (dy =? 1) currentCell w_bottom;
          if b3 : bool then Ok st else
          b4 ← blocked (dy =? -1) currentCell w_top;
          if b4 : bool then Ok st else
          let moved :=
            mkGame (gameState st) (moveCount st + 1) (mkPos newX newY) (maze st)
              (trail st ++ [mkPos newX newY]) now (startTime st)
              (effects st ++ [PlayClick]) in
          if (newX =? size cfg - 1) && (newY =? size cfg - 1) then
            let maxScore := if timeLimit cfg =? 0 then 120 else timeLimit cfg in
            let score := Z.max 0 (maxScore + (- (now' - startTime st)) / 1000) in
            Ok (mkGame Won (moveCount moved) (playerPos moved) (maze moved)
                  (trail moved) (lastMoveTime moved) (startTime moved)
                  (effects moved ++ [PlaySuccess; OnComplete score maxScore]))
          else Ok moved
      end.

(** [handleTouchEnd] as it is installed. The effect that installs the touch
    handlers depends on [gameState] only: it runs after the first render of
    the component and again when the game ends. During play the
    [handleMobileMove] it calls is therefore the one of the first render, in
    which [gameState] is 'playing', [playerPos] is (0, 0) and [maze] is the
    empty array given to [useState]; after the end of the game the handler
    installed then returns at its own guard. *)
Definition handleTouchEnd (cfg : Config) (st : Game)
    (touchStartX touchStartY touchEndX touchEndY : Z) (now now' : Z) : result Game :=
  match swipeMove (gameState st) touchStartX touchStartY touchEndX touchEndY with
  | Some d => movePlayerSeen cfg Playing [] (mkPos 0 0) st (dx d) (dy d) now now'
  | None => Ok st
  end.

(** What happens during a game: a run of [loop], a click on one of the four
    arrow buttons below the canvas (whose handler is the [handleMobileMove]
    of the current render), and a swipe on the canvas. *)
Inductive Event :=
  | FrameEvent (keysPressed : gset string) (now now' clock : Z)
  | ButtonEvent (d : Dir) (now now' : Z)
  | SwipeEvent (touchStartX touchStartY touchEndX touchEndY : Z) (now now' : Z).

(** The loop effect returns at once unless [gameState] is 'playing', so
    frames only run during play. *)
Definition step (cfg : Config) (st : Game) (e : Event) : result Game :=
  match e with
  | FrameEvent keysPressed now now' clock =>
      if bool_decide (gameState st = Playing)
      then fr ← loop cfg keysPressed st now now' clock; Ok (fr_game fr)
      else Ok st
  | ButtonEvent d now now' => attemptMove cfg st d now now'
  | SwipeEvent x0 y0 x1 y1 now now' => handleTouchEnd cfg st x0 y0 x1 y1 now now'
  end.

Fixpoint run (cfg : Config) (st : Game) (events : list Event) : result Game :=
  match events with
  | [] => Ok st
  | e :: rest => st' ← step cfg st e; run cfg st' rest
  end.

(** The events are frames whose clock readings are in order: each frame
    reads [now], then [now'], then [clock], none of them before [t] or
    before the readings of the frame before. *)
Fixpoint frames_from (t : Z) (events : list Event) : Prop :=
  match events with
  | [] => True
  | FrameEvent _ now now' clock :: rest =>
      t ≤ now ∧ now ≤ now' ∧ now' ≤ clock ∧ frames_from clock rest
  | _ :: _ => False
  end.

(** The arrow key that asks for direction [d]. *)
Definition arrowKey (d : Dir) : string :=
  match d with
  | Top => "arrowup"
  | Bottom => "arrowdown"
  | Left => "arrowleft"
  | Right => "arrowright"
  end.

(** ** Level progress (lib/storage.ts)

    What [onComplete] leads to: the game shell turns the score into stars
    and [completeLevel] records them in the stored progress of the game.
    The player profile ([updateProfileStats]) is left out. *)

#[global] Instance Difficulty_eq_dec : EqDecision Difficulty.
Proof. solve_decision. Defined.

(** [interface LevelProgress]. The fields are prefixed because
    [GameProgress] has a [bestScore] too. *)
Record LevelProgress := mkLevelProgress {
  lp_completed : bool;
  lp_stars : Z;
  lp_bestScore : Z;
  lp_unlocked : bool
}.

(** [GameProgress.levels]. *)
Record Levels := mkLevels {
  easy : list LevelProgress;
  hard : list LevelProgress;
  insane : list LevelProgress
}.

(** [interface GameProgress]. *)
Record GameProgress := mkGameProgress {
  unlockedDifficulty : Difficulty;
  levels : Levels;
  gp_bestScore : Z;
  totalPlayTime : Z;
  lastPlayed : Z;
  gamesPlayed : Z
}.

(** [levels[difficulty]], read and written. *)
Definition levelsOf (l : Levels) (difficulty : Difficulty) : list LevelProgress :=
  match difficulty with
  | Easy => easy l
  | Hard => hard l
  | Insane => insane l
  end.

Definition setLevelsOf (l : Levels) (difficulty : Difficulty)
    (v : list LevelProgress) : Levels :=
  match difficulty with
  | Easy => mkLevels v (hard l) (insane l)
  | Hard => mkLevels (easy l) v (insane l)
  | Insane => mkLevels (easy l) (hard l) v
  end.

(** [list[i]] for a whole number [i]: [undefined] out of range. *)
Definition level_at (l : list LevelProgress) (i : Z) : option LevelProgress :=
  if bool_decide (0 ≤ i) then l !! Z.to_nat i else None.

(** [createDefaultLevels(count)]. *)
Definition createDefaultLevels (count : Z) : list LevelProgress :=
  (λ i, mkLevelProgress false 0 0 (bool_decide (i = 0))) <$> seqZ 0 count.

Definition createDefaultGameProgress : GameProgress :=
  mkGameProgress Easy
    (mkLevels (createDefaultLevels 5) (createDefaultLevels 5) (createDefaultLevels 5))
    0 0 0 0.

(** The three writes to [level] at the start of [completeLevel]. *)
Definition record_result (stars score : Z) (level : LevelProgress) : LevelProgress :=
  mkLevelProgress true (Z.max (lp_stars level) stars)
    (Z.max (lp_bestScore level) score) (lp_unlocked level).

(** [level.unlocked = true]. *)
Definition set_unlocked (level : LevelProgress) : LevelProgress :=
  mkLevelProgress (lp_completed level) (lp_stars level) (lp_bestScore level) true.

(** [list[0].unlocked = true], which throws on an empty list. *)
Definition unlock_first (l : list LevelProgress) : result (list LevelProgress) :=
  match l with
  | [] => TypeError
  | first :: rest => Ok (set_unlocked first :: rest)
  end.

(** The writes of [completeLevel] to the list [levels[difficulty]]: the
    result goes into the level at [levelIndex] and the level after it, if
    there is one, is unlocked. *)
Definition played_levels (ls : list LevelProgress) (levelIndex stars score : Z)
    : list LevelProgress :=
  let played := alter (record_result stars score) (Z.to_nat levelIndex) ls in
  if levelIndex + 1 <? Z.of_nat (length played)
  then alter set_unlocked (Z.to_nat (levelIndex + 1)) played
  else played.

(** [completeLevel], as a function of the progress [getGameProgress] loads
    and of the clock reading [now] of [Date.now()]: the progress it saves
    and returns. When it throws nothing has been saved. *)
Definition completeLevel (progress : GameProgress) (difficulty : Difficulty)
    (levelIndex stars score now : Z) : result GameProgress :=
  match level_at (levelsOf (levels progress) difficulty) levelIndex with
  | None => TypeError
  | Some _ =>
      let played :=
        played_levels (levelsOf (levels progress) difficulty) levelIndex stars score in
      let lv := setLevelsOf (levels progress) difficulty played in
      let allComplete := forallb lp_completed played in
      unlockedLevels ←
        (if allComplete then
           match difficulty with
           | Easy =>
               first ← unlock_first (hard lv);
               Ok (Hard, mkLevels (easy lv) first (insane lv))
           | Hard =>
               first ← unlock_first (insane lv);
               Ok (Insane, mkLevels (easy lv) (hard lv) first)
           | Insane => Ok (unlockedDifficulty progress, lv)
           end
         else Ok (unlockedDifficulty progress, lv));
      Ok (mkGameProgress unlockedLevels.1 unlockedLevels.2
            (Z.max (gp_bestScore progress) score) (totalPlayTime progress)
            now (gamesPlayed progress + 1))
  end.

(** [getTotalStarsForGame], on the loaded progress. *)
Definition getTotalStarsForGame (progress : GameProgress) : Z :=
  foldl (λ total diff,
           foldl (λ total level, total + lp_stars level) total
             (levelsOf (levels progress) diff))
    0 [Easy; Hard; Insane].

(** ** The game shell (components/GameShell.tsx) *)

Inductive View := ViewSelect | ViewPlaying | ViewComplete.

#[global] Instance View_eq_dec : EqDecision View.
Proof. solve_decision. Defined.

(** The React state of the shell that the level flow reads and writes. *)
Record Shell := mkShell {
  progress : option GameProgress;
  view : View;
  selectedDifficulty : Difficulty;
  selectedLevel : Z;
  completionStars : Z;
  completionScore : Z
}.

(** The stars [handleComplete] awards. The scores the games report are
    whole numbers far below 2^50, for which [score / maxScore >= 0.9] in
    floating point is [9 * maxScore <= 10 * score], and likewise for 0.6. *)
Definition starsOf (score maxScore : Z) : Z :=
  if 0 <? maxScore then
    if 9 * maxScore <=? 10 * score then 3
    else if 6 * maxScore <=? 10 * score then 2
    else 1
  else 1.

(** [handleComplete(score, maxScore)], with [stored] the progress in
    storage: the state of the shell afterwards, and the progress saved to
    storage or the exception thrown by [completeLevel]. *)
Definition handleComplete (sh : Shell) (stored : GameProgress)
    (score maxScore now : Z) : Shell * result GameProgress :=
  let stars := starsOf score maxScore in
  match completeLevel stored (selectedDifficulty sh) (selectedLevel sh) stars score now with
  | Ok updated =>
      (mkShell (Some updated) ViewComplete (selectedDifficulty sh) (selectedLevel sh)
         stars score, Ok updated)
  | TypeError =>
      (mkShell (progress sh) (view sh) (selectedDifficulty sh) (selectedLevel sh)
         stars score, TypeError)
  | OutOfFuel =>
      (mkShell (progress sh) (view sh) (selectedDifficulty sh) (selectedLevel sh)
         stars score, OutOfFuel)
  end.

Definition startLevel (sh : Shell) (diff : Difficulty) (lvl : Z) : Shell :=
  mkShell (progress sh) ViewPlaying diff lvl (completionStars sh) (completionScore sh).



(** [isUnlocked] of the level select screen: whether the tab of a
    difficulty shows its level buttons. *)
Definition isUnlocked (p : GameProgress) (diff : Difficulty) : bool :=
  match diff with
  | Easy => true
  | Hard => bool_decide (unlockedDifficulty p = Hard)
            || bool_decide (unlockedDifficulty p = Insane)
  | Insane => bool_decide (unlockedDifficulty p = Insane)
  end.

(** A click on the button of level [i] of difficulty [diff]. The button is
    there on the level select screen, once the progress is loaded, in a tab
    that is unlocked; its handler is [lvl.unlocked && startLevel(diff, i)]. *)
Definition clickLevel (sh : Shell) (diff : Difficulty) (i : nat) : Shell :=
  match progress sh with
  | Some p =>
      if bool_decide (view sh = ViewSelect) && isUnlocked p diff
         && match levelsOf (levels p) diff !! i with
            | Some lvl => lp_unlocked lvl
            | None => false
            end
      then startLevel sh diff (Z.of_nat i)
      else sh
  | None => sh
  end.

(** Playing the levels [from], [from + 1], ... of a difficulty one after
    the other, each with its stars, score and clock reading. *)
Fixpoint completeInOrder (p : GameProgress) (difficulty : Difficulty) (from : Z)
    (results : list (Z * Z * Z)) : result GameProgress :=
  match results with
  | [] => Ok p
  | (stars, score, now) :: rest =>
      p' ← completeLevel p difficulty from stars score now;
      completeInOrder p' difficulty (from + 1) rest
  end.

(** The progress of a player who, starting from the default progress, has
    completed the five easy and then the five hard levels in order. *)
Definition veteran_progress : GameProgress :=
  match (p ← completeInOrder createDefaultGameProgress Easy 0 (replicate 5 (3, 100, 1));
         completeInOrder p Hard 0 (replicate 5 (2, 40, 2))) with
  | Ok p => p
  | _ => createDefaultGameProgress
  end.

(** The progress after a first win: the first easy level completed with
    three stars and a score of 100. *)
Definition first_win : GameProgress :=
  match completeLevel createDefaultGameProgress Easy 0 3 100 1 with
  | Ok p => p
  | _ => createDefaultGameProgress
  end.

(** The progress of that player after playing the third easy level once
    more. *)
Definition replayed_progress : GameProgress :=
  match completeLevel veteran_progress Easy 2 1 10 3 with
  | Ok p => p
  | _ => veteran_progress
  end.

(** Every level of the list other than the one at [i] is completed. *)
Definition others_completed (ls : list LevelProgress) (i : Z) : Prop :=
  ∀ j l, ls !! j = Some l → j ≠ Z.to_nat i → lp_completed l = true.

(** One level is at least as far as another: nothing achieved is lost. *)
Definition level_le (l l' : LevelProgress) : Prop :=
  (lp_completed l = true → lp_completed l' = true)
  ∧ (lp_unlocked l = true → lp_unlocked l' = true)
  ∧ lp_stars l ≤ lp_stars l'
  ∧ lp_bestScore l ≤ lp_bestScore l'.

(** * Lemmas *)

(** ** Basic facts *)

Lemma in_grid_inside size p :
  in_grid size (pos_x p) (pos_y p) = true ↔ inside size p.
Proof. unfold in_grid, inside. rewrite !andb_true_iff. lia. Qed.

Lemma in_grid_spec size x y :
  in_grid size x y = true ↔ inside size (mkPos x y).
Proof. apply (in_grid_inside size (mkPos x y)). Qed.

Lemma elem_of_directions d : d ∈ directions.
Proof. unfold directions. rewrite !elem_of_cons. destruct d; tauto. Qed.

Lemma opposite_involutive d : opposite (opposite d) = d.
Proof. by destruct d. Qed.

Lemma neighbor_back p d : neighbor (neighbor p d) (opposite d) = p.
Proof. destruct p, d; unfold neighbor; simpl; f_equal; lia. Qed.

Lemma bind_Ok {A B} (r : result A) (f : A → result B) b :
  r ≫= f = Ok b → ∃ a, r = Ok a ∧ f a = Ok b.
Proof. destruct r; simpl; eauto; discriminate. Qed.

(** ** Grid access lemmas *)

Lemma cell_at_nonneg g p c : cell_at g p = Some c → 0 ≤ pos_x p ∧ 0 ≤ pos_y p.
Proof.
  unfold cell_at, row_at, col_at. intros H.
  destruct (decide (0 ≤ pos_y p)) as [Hy|Hy].
  - rewrite (bool_decide_true (0 ≤ pos_y p)) in H by done.
    destruct (g !! Z.to_nat (pos_y p)); [|done]. simpl in H.
    by case_bool_decide.
  - by rewrite (bool_decide_false (0 ≤ pos_y p)) in H.
Qed.

Lemma cell_at_row g p c :
  cell_at g p = Some c →
  ∃ row, row_at g (pos_y p) = Some row ∧ col_at row (pos_x p) = Some c.
Proof.
  unfold cell_at. destruct (row_at g (pos_y p)) as [row|]; [|discriminate].
  simpl. eauto.
Qed.

Lemma cell_at_update g p f g' q :
  update_cell g p f = Ok g' →
  cell_at g' q = if decide (q = p) then f <$> cell_at g p else cell_at g q.
Proof.
  unfold update_cell. destruct (cell_at g p) as [c|] eqn:Hp; [|discriminate].
  intros [= <-]. pose proof (cell_at_nonneg _ _ _ Hp) as [Hx Hy].
  case_decide as Hq.
  - subst q. unfold cell_at, row_at, col_at in *.
    rewrite !bool_decide_true in * by done.
    rewrite list_lookup_alter_eq.
    destruct (g !! Z.to_nat (pos_y p)) as [row|]; simpl in *; [|discriminate].
    by rewrite list_lookup_alter_eq, Hp.
  - unfold cell_at, row_at, col_at.
    destruct (decide (0 ≤ pos_y q)) as [Hny|Hny];
      [rewrite (bool_decide_true (0 ≤ pos_y q)) by done
      |by rewrite (bool_decide_false (0 ≤ pos_y q))].
    destruct (decide (pos_y q = pos_y p)) as [Hy'|Hy'].
    + rewrite Hy', list_lookup_alter_eq.
      destruct (g !! Z.to_nat (pos_y p)) as [row|]; simpl; [|done].
      case_bool_decide as Hnx; [|done].
      rewrite list_lookup_alter_ne; [done|].
      intros Hx'. apply Hq. destruct p, q; simpl in *. f_equal; lia.
    + rewrite list_lookup_alter_ne; [done|]. lia.
Qed.

Lemma update_cell_Ok g p f c :
  cell_at g p = Some c → ∃ g', update_cell g p f = Ok g'.
Proof. unfold update_cell. intros ->. eauto. Qed.

Lemma has_wall_set_wall g p d b g' q d' :
  set_wall g p d b = Ok g' →
  has_wall g' q d' = if decide (q = p ∧ d' = d) then b else has_wall g q d'.
Proof.
  intros H. unfold has_wall. rewrite (cell_at_update _ _ _ _ q H).
  unfold set_wall, update_cell in H.
  destruct (cell_at g p) as [c|] eqn:Hp; [|discriminate].
  destruct (decide (q = p)) as [->|Hq].
  - rewrite Hp. simpl. destruct (decide (d' = d)) as [->|Hd].
    + rewrite decide_True by done. by destruct d.
    + rewrite decide_False by (by intros [_ ?]). by destruct d, d'.
  - by rewrite decide_False by (by intros [? _]).
Qed.

Lemma is_visited_set_wall g p d b g' q :
  set_wall g p d b = Ok g' → is_visited g' q = is_visited g q.
Proof.
  intros H. unfold is_visited. rewrite (cell_at_update _ _ _ _ q H).
  case_decide as Hq; [|done]. subst q. by destruct (cell_at g p).
Qed.

Lemma has_wall_mark_visited g p g' q d :
  mark_visited g p = Ok g' → has_wall g' q d = has_wall g q d.
Proof.
  intros H. unfold has_wall. rewrite (cell_at_update _ _ _ _ q H).
  case_decide as Hq; [|done]. subst q. by destruct (cell_at g p).
Qed.

Lemma is_visited_mark_visited g p g' q :
  mark_visited g p = Ok g' →
  is_visited g' q = if decide (q = p) then true else is_visited g q.
Proof.
  intros H. unfold is_visited. rewrite (cell_at_update _ _ _ _ q H).
  unfold mark_visited, update_cell in H.
  destruct (cell_at g p) as [c|] eqn:Hp; [|discriminate].
  by case_decide.
Qed.

Lemma wf_grid_update size g p f g' :
  (∀ c, cell_x (f c) = cell_x c ∧ cell_y (f c) = cell_y c) →
  wf_grid size g → update_cell g p f = Ok g' → wf_grid size g'.
Proof.
  intros Hf Hwf H q. rewrite (cell_at_update _ _ _ _ q H).
  case_decide as Hq; [|apply Hwf]. subst q.
  specialize (Hwf p). destruct (cell_at g p) as [c|]; simpl; [|done].
  destruct (Hf c) as [-> ->]. done.
Qed.

Lemma wf_grid_set_wall size g p d b g' :
  wf_grid size g → set_wall g p d b = Ok g' → wf_grid size g'.
Proof. apply wf_grid_update. done. Qed.

Lemma wf_grid_mark_visited size g p g' :
  wf_grid size g → mark_visited g p = Ok g' → wf_grid size g'.
Proof. apply wf_grid_update. done. Qed.

Lemma wf_grid_inside size g p :
  wf_grid size g → inside size p → ∃ c, cell_at g p = Some c ∧ cell_x c = pos_x p ∧ cell_y c = pos_y p.
Proof.
  intros Hwf Hp. specialize (Hwf p). destruct (cell_at g p) as [c|]; [|done].
  exists c. by destruct Hwf as (_ & ? & ?).
Qed.

Lemma wf_grid_cell size g p c :
  wf_grid size g → cell_at g p = Some c →
  inside size p ∧ cell_x c = pos_x p ∧ cell_y c = pos_y p.
Proof. intros Hwf Hp. specialize (Hwf p). by rewrite Hp in Hwf. Qed.

Lemma set_wall_Ok size g p d b :
  wf_grid size g → inside size p → ∃ g', set_wall g p d b = Ok g'.
Proof.
  intros Hwf Hp. destruct (wf_grid_inside _ _ _ Hwf Hp) as (c & Hc & _).
  by eapply update_cell_Ok.
Qed.

Lemma mark_visited_Ok size g p :
  wf_grid size g → inside size p → ∃ g', mark_visited g p = Ok g'.
Proof.
  intros Hwf Hp. destruct (wf_grid_inside _ _ _ Hwf Hp) as (c & Hc & _).
  by eapply update_cell_Ok.
Qed.

(** ** The grid builder *)

Lemma cell_at_initGrid size p :
  cell_at (initGrid size) p =
    if decide (inside size p)
    then Some (mkCell (pos_x p) (pos_y p) (mkWalls true true true true) false)
    else None.
Proof.
  unfold cell_at, row_at, col_at, initGrid.
  destruct (decide (0 ≤ pos_y p)) as [Hny|Hny];
    [rewrite (bool_decide_true (0 ≤ pos_y p)) by done
    |rewrite (bool_decide_false (0 ≤ pos_y p)) by done; simpl;
     by rewrite decide_False by (unfold inside; lia)].
  rewrite list_lookup_fmap.
  destruct (decide (pos_y p < size)) as [Hy|Hy];
    [rewrite lookup_seqZ_lt by lia
    |rewrite lookup_seqZ_ge by lia; simpl;
     by rewrite decide_False by (unfold inside; lia)].
  simpl.
  destruct (decide (0 ≤ pos_x p)) as [Hnx|Hnx];
    [rewrite bool_decide_true by done
    |rewrite bool_decide_false by done;
     by rewrite decide_False by (unfold inside; lia)].
  rewrite list_lookup_fmap.
  destruct (decide (pos_x p < size)) as [Hx|Hx];
    [rewrite lookup_seqZ_lt by lia
    |rewrite lookup_seqZ_ge by lia; simpl;
     by rewrite decide_False by (unfold inside; lia)].
  simpl. rewrite decide_True by (unfold inside; lia).
  do 2 f_equal; lia.
Qed.

Lemma wf_grid_initGrid size : wf_grid size (initGrid size).
Proof. intros p. rewrite cell_at_initGrid. case_decide; naive_solver. Qed.

Lemma has_wall_initGrid size p d : has_wall (initGrid size) p d = true.
Proof. unfold has_wall. rewrite cell_at_initGrid. case_decide; by destruct d. Qed.

Lemma is_visited_initGrid size p : is_visited (initGrid size) p = false.
Proof. unfold is_visited. rewrite cell_at_initGrid. by case_decide. Qed.

(** ** Walks and trees grown leaf by leaf *)

Section Walks.
Context (R : relation Position).

Lemma walk_first a b p : walk R a b p → ∃ p', p = a :: p'.
Proof. destruct 1; eauto. Qed.

Lemma walk_first_in a b p : walk R a b p → a ∈ p.
Proof. intros [p' ->]%walk_first. left. Qed.

Lemma walk_last_in a b p : walk R a b p → b ∈ p.
Proof. induction 1; [left | by right]. Qed.

Lemma walk_rtc a b p : walk R a b p → rtc R a b.
Proof. induction 1; [done | by eapply rtc_l]. Qed.

Lemma walk_snoc a b c p : walk R a b p → R b c → walk R a c (p ++ [c]).
Proof.
  induction 1 as [a|a b' c' p HR Hw IH]; intros Hbc; simpl.
  - eapply walk_step; [done | constructor].
  - eapply walk_step; [done | by apply IH].
Qed.

Lemma walk_reverse a b p :
  (∀ x y, R x y → R y x) → walk R a b p → walk R b a (reverse p).
Proof.
  intros Hsym. induction 1 as [a|a b' c' p HR Hw IH].
  - constructor.
  - rewrite reverse_cons. eapply walk_snoc; eauto.
Qed.

Lemma walk_loop a p : walk R a a p → NoDup p → p = [a].
Proof.
  inversion 1 as [|? b ? p' HR Hw]; subst; [done|].
  intros [Hnin _]%NoDup_cons. destruct Hnin. by eapply walk_last_in.
Qed.

End Walks.

Lemma walk_mono (R R' : relation Position) a b p :
  (∀ x y, R x y → R' x y) → walk R a b p → walk R' a b p.
Proof. intros HRR. induction 1; econstructor; eauto. Qed.

Lemma tree_edge_in V R a b : tree V R → R a b → a ∈ V ∧ b ∈ V.
Proof.
  induction 1 as [r R Hno|V R R' u v Ht IH Hu Hv HR']; intros Hab.
  - by destruct (Hno a b).
  - apply HR' in Hab as [Hab|[[-> ->]|[-> ->]]].
    + destruct (IH Hab). split; by right.
    + split; [by right | left].
    + split; [left | by right].
Qed.

Lemma tree_sym V R a b : tree V R → R a b → R b a.
Proof.
  induction 1 as [r R Hno|V R R' u v Ht IH Hu Hv HR']; intros Hab.
  - by destruct (Hno a b).
  - apply HR'. apply HR' in Hab as [Hab|[[-> ->]|[-> ->]]]; auto.
Qed.

Section Leaf.
Context (V : list Position) (R R' : relation Position) (u v : Position).
Hypothesis Ht : tree V R.
Hypothesis Hu : u ∈ V.
Hypothesis Hv : v ∉ V.
Hypothesis HR' : ∀ a b, R' a b ↔ R a b ∨ (a = u ∧ b = v) ∨ (a = v ∧ b = u).

Lemma leaf_edge_l b : R' v b → b = u.
Proof using Ht Hu Hv HR'.
  intros [Hvb|[[Heq _]|[_ Heq]]]%HR'; [| |done].
  - by destruct (tree_edge_in _ _ _ _ Ht Hvb).
  - destruct Hv. by rewrite Heq.
Qed.

Lemma leaf_edge_r a : R' a v → a = u.
Proof using Ht Hu Hv HR'.
  intros [Hvb|[[Heq _]|[_ Heq]]]%HR'; [|done|].
  - by destruct (tree_edge_in _ _ _ _ Ht Hvb).
  - destruct Hv. by rewrite Heq.
Qed.

Lemma leaf_edge_old a b : R' a b → a ≠ v → b ≠ v → R a b.
Proof using HR'. intros [Hab|[[_ Heq]|[Heq _]]]%HR' ??; done. Qed.

(** A leaf can only be an end of a simple path. *)
Lemma leaf_at_end a c p :
  walk R' a c p → NoDup p → v ∈ p → v = a ∨ v = c.
Proof using Ht Hu Hv HR'.
  induction 1 as [a|a b c p HR Hw IH]; intros Hnd Hin.
  - left. by apply list_elem_of_singleton in Hin.
  - apply NoDup_cons in Hnd as [Ha Hnd].
    apply elem_of_cons in Hin as [Hva|Hin]; [by left|].
    destruct (IH Hnd Hin) as [Hvb|Hvc]; [|by right]. subst b.
    inversion Hw as [|? b' ? p' HR2 Hw2]; subst; [by right|].
    apply leaf_edge_r in HR. apply leaf_edge_l in HR2. subst a b'.
    destruct Ha. right. by eapply walk_first_in.
Qed.

Lemma walk_avoiding_leaf a c p : walk R' a c p → v ∉ p → walk R a c p.
Proof using HR'.
  induction 1 as [a|a b c p HR Hw IH]; intros Hnin; [constructor|].
  apply not_elem_of_cons in Hnin as [Ha Hp]. econstructor; [|by apply IH].
  apply leaf_edge_old; [done..|].
  intros ->. apply Hp. by eapply walk_first_in.
Qed.

Hypothesis IH : ∀ a b p q,
  walk R a b p → NoDup p → walk R a b q → NoDup q → p = q.

Lemma unique_from_leaf c p q :
  walk R' v c p → NoDup p → walk R' v c q → NoDup q → p = q.
Proof using Ht Hu Hv HR' IH.
  intros Hp Hndp Hq Hndq. destruct (decide (c = v)) as [->|Hc].
  - by rewrite (walk_loop _ _ _ Hp Hndp), (walk_loop _ _ _ Hq Hndq).
  - inversion Hp as [|? b ? p' HRp Hp']; subst; [done|].
    inversion Hq as [|? b' ? q' HRq Hq']; subst; [done|].
    apply leaf_edge_l in HRp, HRq. subst.
    apply NoDup_cons in Hndp as [Hvp Hndp], Hndq as [Hvq Hndq].
    f_equal. apply (IH u c); [|done| |done]; by apply walk_avoiding_leaf.
Qed.

Lemma unique_with_leaf a c p q :
  walk R' a c p → NoDup p → walk R' a c q → NoDup q → p = q.
Proof using Ht Hu Hv HR' IH.
  intros Hp Hndp Hq Hndq.
  assert (Hsym : ∀ x y, R' x y → R' y x).
  { intros x y. eapply (tree_sym (v :: V)). by eapply tree_leaf. }
  destruct (decide (a = v)) as [->|Ha]; [by eapply unique_from_leaf|].
  destruct (decide (c = v)) as [->|Hc].
  - apply (inj reverse). eapply unique_from_leaf.
    + by apply walk_reverse.
    + by rewrite reverse_Permutation.
    + by apply walk_reverse.
    + by rewrite reverse_Permutation.
  - apply (IH a c); [|done| |done]; apply walk_avoiding_leaf; try done.
    + intros Hin. destruct (leaf_at_end _ _ _ Hp Hndp Hin); congruence.
    + intros Hin. destruct (leaf_at_end _ _ _ Hq Hndq Hin); congruence.
Qed.
End Leaf.

Lemma tree_path_unique V R a b p q :
  tree V R → walk R a b p → NoDup p → walk R a b q → NoDup q → p = q.
Proof.
  intros Ht. revert a b p q.
  induction Ht as [r R Hno|V R R' u v Ht IH Hu Hv HR']; intros a b p q Hp Hndp Hq Hndq.
  - destruct Hp as [|? ? ? ? HR _]; [|by destruct (Hno _ _ HR)].
    inversion Hq as [|? ? ? ? HR _]; [done|by destruct (Hno _ _ HR)].
  - by eapply (unique_with_leaf V R R' u v).
Qed.

Lemma tree_path_exists V R a b :
  tree V R → a ∈ V → b ∈ V →
  ∃ p, walk R a b p ∧ NoDup p ∧ ∀ x, x ∈ p → x ∈ V.
Proof.
  intros Ht. revert a b.
  induction Ht as [r R Hno|V R R' u v Ht IH Hu Hv HR']; intros a b Ha Hb.
  - apply list_elem_of_singleton in Ha as ->, Hb as ->.
    exists [r]. split_and!; [constructor | apply NoDup_singleton | done].
  - assert (Hmono : ∀ x y, R x y → R' x y) by (intros x y ?; apply HR'; auto).
    destruct (decide (a = v)) as [->|Hav], (decide (b = v)) as [->|Hbv].
    + exists [v]. split_and!; [constructor | apply NoDup_singleton |].
      intros x ->%list_elem_of_singleton. left.
    + apply elem_of_cons in Hb as [?|Hb]; [done|].
      destruct (IH u b Hu Hb) as (p & Hp & Hnd & HpV).
      exists (v :: p). split_and!.
      * eapply walk_step; [apply HR'; auto | by eapply walk_mono].
      * apply NoDup_cons. split; [|done]. intros Hin. by apply Hv, HpV.
      * intros x [->|Hx]%elem_of_cons; [left | right; auto].
    + apply elem_of_cons in Ha as [?|Ha]; [done|].
      destruct (IH a u Ha Hu) as (p & Hp & Hnd & HpV).
      exists (p ++ [v]). split_and!.
      * eapply walk_snoc; [by eapply walk_mono | apply HR'; auto].
      * apply NoDup_app. split_and!; [done | | apply NoDup_singleton].
        intros x Hx ->%list_elem_of_singleton. by apply Hv, HpV.
      * intros x [Hx| ->%list_elem_of_singleton]%elem_of_app; [right; auto | left].
    + apply elem_of_cons in Ha as [?|Ha]; [done|].
      apply elem_of_cons in Hb as [?|Hb]; [done|].
      destruct (IH a b Ha Hb) as (p & Hp & Hnd & HpV).
      exists p. split_and!; [by eapply walk_mono | done | by right; auto].
Qed.

(** No cycles: a simple path of three or more vertices is not closed by an
    edge. *)
Lemma tree_no_cycle V R a b p :
  tree V R → walk R a b p → NoDup p → (3 ≤ length p)%nat → ¬ R b a.
Proof.
  intros Ht Hp Hnd Hlen Hba.
  assert (Hab : R a b) by by eapply tree_sym.
  assert (Hne : a ≠ b).
  { intros <-. rewrite (walk_loop _ _ _ Hp Hnd) in Hlen. simpl in Hlen. lia. }
  assert (Hq : walk R a b [a; b]) by (eapply walk_step; [done | constructor]).
  assert (p = [a; b]) as ->.
  { eapply tree_path_unique; try done.
    apply NoDup_cons. split; [by intros ->%list_elem_of_singleton | apply NoDup_singleton]. }
  simpl in Hlen. lia.
Qed.

(** ** Counting *)

Lemma filter_length_ext {A} (P Q : A → Prop)
    `{!∀ x, Decision (P x)} `{!∀ x, Decision (Q x)} (l : list A) :
  (∀ x, x ∈ l → (P x ↔ Q x)) → length (filter P l) = length (filter Q l).
Proof.
  induction l as [|x l IH]; intros HPQ; [done|].
  rewrite !filter_cons.
  assert (P x ↔ Q x) as Hx by (apply HPQ; left).
  assert (length (filter P l) = length (filter Q l)) as Hl
    by (apply IH; intros; apply HPQ; by right).
  destruct (decide (P x)), (decide (Q x)); simpl; try tauto; lia.
Qed.

Lemma filter_length_mono {A} (P Q : A → Prop)
    `{!∀ x, Decision (P x)} `{!∀ x, Decision (Q x)} (l : list A) :
  (∀ x, x ∈ l → P x → Q x) → (length (filter P l) ≤ length (filter Q l))%nat.
Proof.
  induction l as [|x l IH]; intros HPQ; [done|].
  rewrite !filter_cons.
  assert (P x → Q x) as Hx by (apply HPQ; left).
  assert (length (filter P l) ≤ length (filter Q l))%nat as Hl
    by (apply IH; intros; apply HPQ; [by right | done]).
  destruct (decide (P x)), (decide (Q x)); simpl; try tauto; lia.
Qed.

(** Switching the predicate on at exactly one element of a duplicate-free
    list adds one to the count. *)
Lemma filter_length_flip {A} (P Q : A → Prop)
    `{!∀ x, Decision (P x)} `{!∀ x, Decision (Q x)} (l : list A) e :
  NoDup l → e ∈ l → ¬ P e → Q e →
  (∀ x, x ∈ l → x ≠ e → (P x ↔ Q x)) →
  length (filter Q l) = S (length (filter P l)).
Proof.
  induction l as [|x l IH]; intros Hnd He HP HQ HPQ.
  - by apply elem_of_nil in He.
  - apply NoDup_cons in Hnd as [Hx Hnd]. rewrite !filter_cons.
    apply elem_of_cons in He as [<-|He].
    + destruct (decide (P e)); [done|]. destruct (decide (Q e)); [|done].
      simpl. f_equal. symmetry. apply filter_length_ext. intros x Hin. apply HPQ; [by right|].
      by intros ->.
    + assert (x ≠ e) by (by intros ->).
      assert (P x ↔ Q x) as Hiff by (apply HPQ; [left | done]).
      assert (length (filter Q l) = S (length (filter P l))) as Hl.
      { apply IH; try done. intros; apply HPQ; [by right | done]. }
      destruct (decide (P x)), (decide (Q x)); simpl; try tauto; lia.
Qed.

Lemma filter_length_none {A} (P : A → Prop) `{!∀ x, Decision (P x)} (l : list A) :
  (∀ x, x ∈ l → ¬ P x) → length (filter P l) = O.
Proof.
  induction l as [|x l IH]; intros HP; [done|].
  rewrite filter_cons_False by (apply HP; left).
  apply IH. intros; apply HP; by right.
Qed.

Lemma length_bind_const {A B} (f : A → list B) (l : list A) n :
  (∀ x, length (f x) = n) → length (l ≫= f) = (length l * n)%nat.
Proof.
  intros Hf. induction l as [|x l IH]; csimpl; [done|].
  by rewrite length_app, Hf, IH.
Qed.

(** ** The cells and the wall pairs of the grid *)

Lemma elem_of_all_cells size p : p ∈ all_cells size ↔ inside size p.
Proof.
  unfold all_cells, inside. rewrite list_elem_of_bind. split.
  - intros (y & Hp & Hy). apply list_elem_of_fmap in Hp as (x & -> & Hx).
    apply elem_of_seqZ in Hx, Hy. simpl. lia.
  - intros [Hx Hy]. exists (pos_y p). rewrite list_elem_of_fmap, elem_of_seqZ.
    split; [|lia]. exists (pos_x p). rewrite elem_of_seqZ.
    split; [by destruct p | lia].
Qed.

Lemma NoDup_all_cells size : NoDup (all_cells size).
Proof.
  unfold all_cells. apply NoDup_bind; [| |apply NoDup_seqZ].
  - intros y1 y2 p _ _ (x1 & -> & _)%list_elem_of_fmap (x2 & [= _ ->] & _)%list_elem_of_fmap.
    done.
  - intros y _. apply NoDup_fmap_2; [|apply NoDup_seqZ]. by intros x1 x2 [=].
Qed.

Lemma length_all_cells size :
  length (all_cells size) = (Z.to_nat size * Z.to_nat size)%nat.
Proof.
  unfold all_cells. rewrite (length_bind_const _ _ (Z.to_nat size)).
  - by rewrite length_seqZ.
  - intros y. by rewrite length_fmap, length_seqZ.
Qed.

Lemma length_inside_le size (l : list Position) :
  NoDup l → (∀ p, p ∈ l → inside size p) → (length l ≤ length (all_cells size))%nat.
Proof.
  intros Hnd Hin. apply submseteq_length, NoDup_submseteq; [done|].
  intros p Hp. by apply elem_of_all_cells, Hin.
Qed.

Lemma length_inside_all size (l : list Position) :
  NoDup l → (∀ p, p ∈ l ↔ inside size p) → length l = length (all_cells size).
Proof.
  intros Hnd Hin. apply Permutation_length, NoDup_Permutation;
    [done | apply NoDup_all_cells |].
  intros p. by rewrite elem_of_all_cells.
Qed.

Lemma elem_of_wall_pairs size p d :
  (p, d) ∈ wall_pairs size ↔
    inside size p ∧ inside size (neighbor p d) ∧ (d = Right ∨ d = Bottom).
Proof.
  unfold wall_pairs. rewrite list_elem_of_filter, list_elem_of_bind. simpl. split.
  - intros (Hn & q & Hpd & Hq). apply elem_of_all_cells in Hq.
    apply elem_of_cons in Hpd as [[= -> ->]|Hpd]; [by auto|].
    apply list_elem_of_singleton in Hpd as [= -> ->]. by auto.
  - intros (Hp & Hn & Hd). split; [done|]. exists p.
    rewrite elem_of_all_cells. split; [|done].
    destruct Hd as [-> | ->]; [left | right; left].
Qed.

Lemma NoDup_wall_pairs size : NoDup (wall_pairs size).
Proof.
  unfold wall_pairs. apply NoDup_filter, NoDup_bind; [| |apply NoDup_all_cells].
  - intros p1 p2 e _ _ H1 H2.
    apply elem_of_cons in H1 as [->|H1%list_elem_of_singleton];
      apply elem_of_cons in H2 as [H2|H2%list_elem_of_singleton]; congruence.
  - intros p _. apply NoDup_cons. split; [|apply NoDup_singleton].
    by intros [=]%list_elem_of_singleton.
Qed.

(** ** Opening a wall pair *)

Lemma mirror_involutive e : mirror (mirror e) = e.
Proof.
  destruct e as [p d]. unfold mirror. simpl.
  by rewrite neighbor_back, opposite_involutive.
Qed.

Lemma mirror_inj e e' : mirror e = mirror e' → e = e'.
Proof.
  intros H%(f_equal mirror). by rewrite !mirror_involutive in H.
Qed.

Lemma mirror_cases e e' :
  (mirror e' = e ∨ mirror e' = mirror e) ↔ (e' = e ∨ e' = mirror e).
Proof.
  split; (intros [H|H]; [right | left]).
  - by rewrite <- H, mirror_involutive.
  - by apply mirror_inj.
  - by rewrite H.
  - by rewrite H, mirror_involutive.
Qed.

Lemma open_pair_mirror g e : open_pair g (mirror e) = open_pair g e.
Proof.
  unfold open_pair. pose proof (mirror_involutive e) as H.
  destruct e as [p d]. unfold mirror in *. simpl in *.
  injection H as -> ->. apply andb_comm.
Qed.

Lemma open_pair_opened e g g' e' :
  opened_by e g g' →
  open_pair g' e' = if decide (e' = e ∨ e' = mirror e) then true else open_pair g e'.
Proof.
  intros Ho. unfold open_pair.
  rewrite (Ho e'.1 e'.2), (Ho (neighbor e'.1 e'.2) (opposite e'.2)).
  rewrite <- surjective_pairing.
  change (neighbor e'.1 e'.2, opposite e'.2) with (mirror e').
  destruct (decide (e' = e ∨ e' = mirror e)) as [Hc|Hc].
  - by rewrite decide_True by (by apply mirror_cases).
  - by rewrite decide_False by (by rewrite mirror_cases).
Qed.

Lemma opened_by_open_pair size g p d :
  wf_grid size g → inside size p → inside size (neighbor p d) →
  ∃ g', (set_wall g p d false ≫= λ g1, set_wall g1 (neighbor p d) (opposite d) false) = Ok g'
    ∧ wf_grid size g' ∧ opened_by (p, d) g g'
    ∧ ∀ q, is_visited g' q = is_visited g q.
Proof.
  intros Hwf Hp Hn.
  destruct (set_wall_Ok size g p d false Hwf Hp) as [g1 H1].
  pose proof (wf_grid_set_wall _ _ _ _ _ _ Hwf H1) as Hwf1.
  destruct (set_wall_Ok size g1 (neighbor p d) (opposite d) false Hwf1 Hn) as [g2 H2].
  exists g2. rewrite H1. simpl. split_and!; [done | by eapply wf_grid_set_wall | |].
  - intros q d'. rewrite (has_wall_set_wall _ _ _ _ _ _ _ H2), (has_wall_set_wall _ _ _ _ _ _ _ H1).
    unfold mirror. simpl.
    destruct (decide (q = neighbor p d ∧ d' = opposite d)) as [[-> ->]|Hne1].
    + by rewrite decide_True by auto.
    + destruct (decide (q = p ∧ d' = d)) as [[-> ->]|Hne2].
      * by rewrite decide_True by auto.
      * rewrite decide_False; [done|]. intros [[= -> ->]|[= -> ->]]; tauto.
  - intros q. by rewrite (is_visited_set_wall _ _ _ _ _ _ H2), (is_visited_set_wall _ _ _ _ _ _ H1).
Qed.

Section Opened.
Context (size : Z) (g g' : Grid) (p : Position) (d : Dir).
Hypothesis Hp : inside size p.
Hypothesis Hn : inside size (neighbor p d).
Hypothesis Ho : opened_by (p, d) g g'.

Lemma opened_symmetric : wall_symmetric size g → wall_symmetric size g'.
Proof using Ho.
  intros Hsym q d' Hq Hqn.
  rewrite (Ho q d'), (Ho (neighbor q d') (opposite d')).
  change (neighbor q d', opposite d') with (mirror (q, d')).
  destruct (decide ((q, d') = (p, d) ∨ (q, d') = mirror (p, d))) as [Hc|Hc].
  - by rewrite decide_True by (by apply mirror_cases).
  - rewrite decide_False by (by rewrite mirror_cases). by apply Hsym.
Qed.

Lemma opened_border : border_walled size g → border_walled size g'.
Proof using Hp Hn Ho.
  intros Hb q d' Hq Hqn. rewrite (Ho q d'). rewrite decide_False; [by apply Hb|].
  unfold mirror. simpl. intros [[= -> ->]|[= -> ->]]; [done|].
  by rewrite neighbor_back in Hqn.
Qed.

Lemma opened_linked a b :
  linked g' a b ↔
    linked g a b ∨ (a = p ∧ b = neighbor p d) ∨ (a = neighbor p d ∧ b = p).
Proof using Ho.
  unfold linked. split.
  - intros (d' & -> & Hopen). rewrite (open_pair_opened _ _ _ _ Ho) in Hopen.
    case_decide as Hc; [|left; eauto]. right. unfold mirror in Hc. simpl in Hc.
    destruct Hc as [[= -> ->]|[= -> ->]]; [by left | right].
    by rewrite neighbor_back.
  - intros [(d' & -> & Hopen)|[[-> ->]|[-> ->]]].
    + exists d'. split; [done|]. rewrite (open_pair_opened _ _ _ _ Ho).
      by case_decide.
    + exists d. split; [done|]. rewrite (open_pair_opened _ _ _ _ Ho).
      by rewrite decide_True by auto.
    + exists (opposite d). split; [by rewrite neighbor_back|].
      rewrite (open_pair_opened _ _ _ _ Ho).
      by rewrite decide_True by (right; done).
Qed.

Lemma opened_openings_succ :
  open_pair g (p, d) = false → openings size g' = S (openings size g).
Proof using Hp Hn Ho.
  intros Hclosed. apply (filter_length_flip _ _ _ (canonical_pair p d)).
  - apply NoDup_wall_pairs.
  - unfold canonical_pair, mirror. simpl.
    destruct d; apply elem_of_wall_pairs; simpl;
      rewrite ?neighbor_back; auto.
  - assert (open_pair g (canonical_pair p d) = false) as ->; [|done].
    unfold canonical_pair. destruct d; by rewrite ?open_pair_mirror.
  - rewrite (open_pair_opened _ _ _ _ Ho). rewrite decide_True; [done|].
    unfold canonical_pair. destruct d; auto.
  - intros [q d'] [_ [_ Hd']]%elem_of_wall_pairs Hne.
    rewrite (open_pair_opened _ _ _ _ Ho). rewrite decide_False; [done|].
    intros Hc. apply Hne. unfold canonical_pair, mirror in *. simpl in *.
    destruct Hc as [[= -> ->]|[= -> ->]], d, Hd'; simpl in *; congruence.
Qed.
End Opened.

(** ** The carving loop *)

Lemma randInt_lt n rng : n ≠ O → ((randInt n rng).1 < n)%nat.
Proof.
  unfold randInt. destruct n as [|n]; [done|]. intros _.
  change (rng O `mod` S n < S n)%nat. apply Nat.mod_upper_bound. lia.
Qed.

Lemma scan_neighbors_spec size g cur c ds :
  wf_grid size g → cell_at g cur = Some c →
  ∃ l, scan_neighbors size g c ds = Ok l ∧
    ∀ q d, (q, d) ∈ l ↔
      d ∈ ds ∧ q = neighbor cur d ∧ inside size q ∧ is_visited g q = false.
Proof.
  intros Hwf Hc. destruct (wf_grid_cell _ _ _ _ Hwf Hc) as (Hin & Hx & Hy).
  induction ds as [|d ds (l & Hl & Hspec)].
  - exists []. split; [done|]. intros q d.
    split; [by intros ?%elem_of_nil | by intros [?%elem_of_nil _]].
  - simpl. rewrite Hx, Hy.
    change (mkPos (pos_x cur + dx d) (pos_y cur + dy d)) with (neighbor cur d).
    destruct (in_grid size _ _) eqn:Hg.
    + apply in_grid_spec in Hg.
      change (mkPos (pos_x cur + dx d) (pos_y cur + dy d)) with (neighbor cur d) in Hg.
      destruct (wf_grid_inside _ _ _ Hwf Hg) as (n & Hn & _).
      unfold deref. rewrite Hn. simpl. rewrite Hl. simpl.
      eexists. split; [done|]. intros q d'.
      assert (is_visited g (neighbor cur d) = visited n) as Hvis
        by (unfold is_visited; by rewrite Hn).
      destruct (visited n).
      * rewrite Hspec, elem_of_cons. split; [intros (? & ? & ? & ?); by auto|].
        intros ([->|?] & -> & ? & ?); [congruence | done].
      * rewrite !elem_of_cons, Hspec. split.
        -- intros [[= -> ->]|(? & ? & ? & ?)]; by auto.
        -- intros ([->|?] & -> & ? & ?); [by left | by right].
    + exists l. split; [done|]. intros q d'. rewrite Hspec, elem_of_cons.
      split; [intros (? & ? & ? & ?); by auto|].
      intros ([->|?] & -> & Hq & ?); [|done].
      apply in_grid_inside in Hq. simpl in Hq. congruence.
Qed.

Lemma carve_inv_inside size st p :
  carve_inv size st → p ∈ cs_marked st → inside size p.
Proof.
  intros Hinv Hp. apply (ci_marked _ _ Hinv) in Hp. unfold is_visited in Hp.
  destruct (cell_at (cs_grid st) p) as [c|] eqn:Hc; [|done].
  by destruct (wf_grid_cell _ _ _ _ (ci_wf _ _ Hinv) Hc).
Qed.

Lemma carve_step_inv size st :
  carve_inv size st → cs_stack st ≠ [] →
  ∃ st', carve_step size st = Ok st' ∧ carve_inv size st'
    ∧ (carve_measure size st' < carve_measure size st)%nat.
Proof.
  intros Hinv Hne. destruct st as [g stack rng pushes pops marked].
  destruct Hinv as [Hwf Hmarked Hnd Hstack Hdone Hroot Hpush Hpop Htree Hfresh Hsym Hborder Hopen].
  simpl in *. destruct stack as [|cur below]; [done|]. clear Hne.
  assert (Hcur : cur ∈ marked) by (apply Hstack; left).
  assert (Hcurin : inside size cur).
  { apply Hmarked in Hcur. unfold is_visited in Hcur.
    destruct (cell_at g cur) as [c|] eqn:Hc; [|done].
    by destruct (wf_grid_cell _ _ _ _ Hwf Hc). }
  destruct (wf_grid_inside _ _ _ Hwf Hcurin) as (c & Hc & _).
  destruct (scan_neighbors_spec size g cur c directions Hwf Hc) as (l & Hl & Hspec).
  unfold carve_step, carve_measure.
  cbn [cs_grid cs_stack cs_rng cs_pushes cs_pops cs_marked].
  unfold deref. rewrite Hc. cbn [mbind result_bind].
  rewrite Hl. cbn [mbind result_bind]. destruct l as [|e l].
  - (* backtrack *)
    eexists. split; [done|]. split; [|simpl; lia].
    constructor; simpl; try done.
    + intros p Hp. apply Hstack. by right.
    + intros p d Hp Hnin Hn. destruct (decide (p = cur)) as [->|Hpc].
      * apply Hmarked. destruct (is_visited g (neighbor cur d)) eqn:Hv; [done|].
        assert ((neighbor cur d, d) ∈ @nil (Position * Dir)) as []%elem_of_nil.
        apply Hspec. split_and!; try done. apply elem_of_directions.
      * apply Hdone; [done| |done]. by intros [->|?]%elem_of_cons.
    + simpl in Hpop. lia.
  - (* descend *)
    destruct (randInt (length (e :: l)) rng) as [i rng'] eqn:Hrand.
    assert (i < length (e :: l))%nat as Hi.
    { pose proof (randInt_lt (length (e :: l)) rng) as H. rewrite Hrand in H.
      by apply H. }
    apply lookup_lt_is_Some_2 in Hi as [[next d] Hnext]. rewrite Hnext.
    apply list_elem_of_lookup_2, Hspec in Hnext as (_ & -> & Hn & Hunvisited).
    destruct (opened_by_open_pair size g cur d Hwf Hcurin Hn) as (g2 & Hg2 & Hwf2 & Ho & Hvis2).
    apply bind_Ok in Hg2 as (g1 & Hg1 & Hg2).
    rewrite Hg1. cbn [mbind result_bind]. rewrite Hg2. cbn [mbind result_bind].
    destruct (mark_visited_Ok size g2 (neighbor cur d) Hwf2 Hn) as [g3 Hg3].
    rewrite Hg3. cbn [mbind result_bind]. eexists. split; [done|].
    assert (Ho3 : opened_by (cur, d) g g3).
    { intros q d'. rewrite (has_wall_mark_visited _ _ _ _ _ Hg3). apply Ho. }
    assert (Hvis3 : ∀ q, is_visited g3 q = if decide (q = neighbor cur d) then true else is_visited g q).
    { intros q. rewrite (is_visited_mark_visited _ _ _ _ Hg3), Hvis2. done. }
    assert (Hnew : neighbor cur d ∉ marked).
    { intros Hin%Hmarked. congruence. }
    assert (Hlen : (S (length marked) ≤ length (all_cells size))%nat).
    { apply (length_inside_le size (neighbor cur d :: marked)).
      - by apply NoDup_cons.
      - intros p [->|Hp]%elem_of_cons; [done|]. apply Hmarked in Hp.
        unfold is_visited in Hp. destruct (cell_at g p) as [c'|] eqn:Hc'; [|done].
        by destruct (wf_grid_cell _ _ _ _ Hwf Hc'). }
    split; [|simpl; lia]. constructor; simpl.
    + by eapply wf_grid_mark_visited.
    + intros p. rewrite Hvis3, elem_of_cons. case_decide; [tauto|].
      rewrite Hmarked. tauto.
    + by apply NoDup_cons.
    + intros p [->|Hp]%elem_of_cons; [left | right; by apply Hstack].
    + intros p d' [->|Hp]%elem_of_cons Hnin Hpn.
      * destruct Hnin. left.
      * right. apply Hdone; [done| |done]. intros Hin. apply Hnin. by right.
    + by right.
    + by rewrite Hpush.
    + simpl in Hpop. lia.
    + eapply tree_leaf; [exact Htree | exact Hcur | exact Hnew |].
      intros a b. by apply opened_linked.
    + intros p d' Hp. rewrite Hvis3 in Hp. case_decide; [done|].
      rewrite (Ho3 p d'). rewrite decide_False; [by apply Hfresh|].
      unfold mirror. simpl. intros [[= -> ->]|[= -> ->]]; [|done].
      apply Hmarked in Hcur. congruence.
    + exact (opened_symmetric size g g3 cur d Ho3 Hsym).
    + exact (opened_border size g g3 cur d Hcurin Hn Ho3 Hborder).
    + rewrite (opened_openings_succ size g g3 cur d); [lia|done..|].
      unfold open_pair. simpl. rewrite (Hfresh (neighbor cur d)) by done.
      apply andb_false_r.
Qed.

(** More iterations than the loop needs do not change the state it ends in. *)
Lemma carve_steps_inv n size st :
  carve_inv size st →
  ∃ st', carve_steps n size st = Ok st' ∧ carve_inv size st'
    ∧ (carve_measure size st' ≤ carve_measure size st)%nat
    ∧ ((carve_measure size st ≤ n)%nat → cs_stack st' = []).
Proof.
  revert st. induction n as [|n IH]; intros st Hinv; simpl.
  - exists st. split_and!; [done..|]. unfold carve_measure.
    intros Hle. destruct (cs_stack st); [done | simpl in Hle; lia].
  - destruct (cs_stack st) as [|cur below] eqn:Hst.
    + exists st. by split_and!.
    + destruct (carve_step_inv size st Hinv) as (st1 & Hstep & Hinv1 & Hlt);
        [by rewrite Hst|].
      rewrite Hstep. simpl.
      destruct (IH st1 Hinv1) as (st' & Hsteps & Hinv' & Hle & Hend).
      exists st'. split_and!; [done..|lia|]. intros Hn. apply Hend. lia.
Qed.

Lemma carve_steps_more n size st st' :
  carve_steps n size st = Ok st' → cs_stack st' = [] →
  ∀ m, (n ≤ m)%nat → carve_steps m size st = Ok st'.
Proof.
  revert st. induction n as [|n IH]; intros st Hrun Hend m Hle; simpl in Hrun.
  - injection Hrun as ->. destruct m; simpl; [done | by rewrite Hend].
  - destruct (cs_stack st) as [|cur below] eqn:Hst.
    + injection Hrun as ->. destruct m; simpl; [done | by rewrite Hst].
    + apply bind_Ok in Hrun as (st1 & Hstep & Hrun).
      destruct m as [|m]; [lia|]. simpl. rewrite Hst, Hstep. simpl.
      apply IH; [done..|lia].
Qed.

(** The grid is connected by its own adjacency: a set of cells that holds
    the start cell and is closed under in-grid neighbours holds every cell. *)
Lemma grid_closed size (S : Position → Prop) :
  S (mkPos 0 0) →
  (∀ p d, S p → inside size (neighbor p d) → S (neighbor p d)) →
  ∀ p, inside size p → S p.
Proof.
  intros H0 Hstep.
  assert (Hrow : ∀ n : nat, Z.of_nat n < size → S (mkPos (Z.of_nat n) 0)).
  { induction n as [|n IH]; intros Hn; [done|].
    replace (mkPos (Z.of_nat (Datatypes.S n)) 0)
      with (neighbor (mkPos (Z.of_nat n) 0) Right)
      by (unfold neighbor; simpl; f_equal; lia).
    apply Hstep; [apply IH; lia|]. unfold inside, neighbor. simpl. lia. }
  assert (Hcol : ∀ x (m : nat), 0 ≤ x < size → Z.of_nat m < size →
            S (mkPos x (Z.of_nat m))).
  { intros x m Hx. induction m as [|m IH]; intros Hm.
    - rewrite <- (Z2Nat.id x) by lia. apply Hrow. lia.
    - replace (mkPos x (Z.of_nat (Datatypes.S m)))
        with (neighbor (mkPos x (Z.of_nat m)) Bottom)
        by (unfold neighbor; simpl; f_equal; lia).
      apply Hstep; [apply IH; lia|]. unfold inside, neighbor. simpl. lia. }
  intros [x y] [Hx Hy]. simpl in *.
  rewrite <- (Z2Nat.id y) by lia. apply Hcol; lia.
Qed.

Lemma carve_init_inv size rng :
  1 ≤ size →
  ∃ st0, carve_init (initGrid size) rng = Ok st0 ∧ carve_inv size st0
    ∧ (carve_measure size st0 < 2 * length (all_cells size))%nat.
Proof.
  intros Hsize.
  assert (H00 : inside size (mkPos 0 0)) by (unfold inside; simpl; lia).
  destruct (mark_visited_Ok size (initGrid size) (mkPos 0 0)) as [g Hg];
    [apply wf_grid_initGrid | done |].
  unfold carve_init. rewrite Hg. simpl. eexists. split; [done|].
  assert (Hwall : ∀ p d, has_wall g p d = true).
  { intros p d. by rewrite (has_wall_mark_visited _ _ _ _ _ Hg), has_wall_initGrid. }
  assert (Hclosed : ∀ e, open_pair g e = false).
  { intros e. unfold open_pair. by rewrite Hwall. }
  split.
  - constructor; simpl.
    + eapply wf_grid_mark_visited; [apply wf_grid_initGrid | done].
    + intros p. rewrite (is_visited_mark_visited _ _ _ _ Hg), is_visited_initGrid.
      rewrite list_elem_of_singleton. by case_decide.
    + apply NoDup_singleton.
    + done.
    + intros p d Hp Hnin. by destruct Hnin.
    + left.
    + done.
    + done.
    + apply tree_root. intros a b (d & _ & Hopen). by rewrite Hclosed in Hopen.
    + done.
    + intros p d _ _. by rewrite !Hwall.
    + by intros p d _ _.
    + unfold openings. rewrite filter_length_none; [done|].
      intros e _. by rewrite Hclosed.
  - unfold carve_measure. simpl.
    assert (1 ≤ length (all_cells size))%nat; [|lia].
    apply (length_inside_le size [mkPos 0 0]); [apply NoDup_singleton|].
    by intros p ->%list_elem_of_singleton.
Qed.

(** The carving phase is total: any fuel of at least [2 * size * size]
    iterations runs the loop to its end, and always to the same state. *)
Lemma carve_total size rng :
  1 ≤ size →
  ∃ st, carve_inv size st ∧ cs_stack st = [] ∧
    ∀ fuel, 2 * size * size ≤ Z.of_nat fuel → carve fuel size rng = Ok st.
Proof.
  intros Hsize.
  destruct (carve_init_inv size rng Hsize) as (st0 & Hinit & Hinv0 & Hm0).
  destruct (carve_steps_inv (carve_measure size st0) size st0 Hinv0)
    as (st & Hrun & Hinv & _ & Hend).
  specialize (Hend (Nat.le_refl _)).
  exists st. split_and!; [done..|]. intros fuel Hfuel.
  unfold carve, carve_loop. rewrite Hinit. simpl.
  rewrite (carve_steps_more _ _ _ _ Hrun Hend); [simpl; by rewrite Hend|].
  rewrite length_all_cells in Hm0. nia.
Qed.

Lemma carve_inv_all_marked size st p :
  carve_inv size st → cs_stack st = [] → inside size p → p ∈ cs_marked st.
Proof.
  intros Hinv Hend. revert p.
  apply (grid_closed size (λ p, p ∈ cs_marked st)); [apply (ci_root _ _ Hinv)|].
  intros p d Hp Hn. apply (ci_done _ _ Hinv); [done| |done].
  rewrite Hend. apply not_elem_of_nil.
Qed.

Lemma carve_inv_all_count size st :
  1 ≤ size → carve_inv size st → cs_stack st = [] →
  Z.of_nat (length (cs_marked st)) = size * size.
Proof.
  intros Hsize Hinv Hend.
  rewrite (length_inside_all size), length_all_cells;
    [nia | apply (ci_nodup _ _ Hinv) |].
  intros p. split; [by apply carve_inv_inside | by apply carve_inv_all_marked].
Qed.

(** ** The braiding loop *)

Lemma opened_by_only_opened e g g' : opened_by e g g' → only_opened g g'.
Proof. intros Ho q d Hq. rewrite (Ho q d). by case_decide. Qed.

Lemma only_opened_open_pair g g' e :
  only_opened g g' → open_pair g e = true → open_pair g' e = true.
Proof.
  unfold open_pair. intros Ho [H1 H2]%andb_true_iff.
  apply negb_true_iff in H1, H2. by rewrite (Ho _ _ H1), (Ho _ _ H2).
Qed.

Lemma only_opened_linked g g' a b :
  only_opened g g' → linked g a b → linked g' a b.
Proof.
  intros Ho (d & -> & Hopen). exists d. split; [done|].
  by eapply only_opened_open_pair.
Qed.

Lemma only_opened_connected size g g' :
  only_opened g g' → connected size g → connected size g'.
Proof.
  intros Ho Hconn a b Ha Hb. eapply rtc_subrel; [|by apply Hconn].
  intros x y. by apply only_opened_linked.
Qed.

Lemma only_opened_openings size g g' :
  only_opened g g' → (openings size g ≤ openings size g')%nat.
Proof.
  intros Ho. apply filter_length_mono. intros e _.
  by apply only_opened_open_pair.
Qed.

Lemma braid_step_spec size g rng :
  1 ≤ size → wf_grid size g →
  ∃ g' rng', braid_step size (g, rng) = Ok (g', rng') ∧ wf_grid size g'
    ∧ (g' = g ∨ (∃ p d, inside size p ∧ inside size (neighbor p d)
                          ∧ opened_by (p, d) g g')).
Proof.
  intros Hsize Hwf. unfold braid_step.
  destruct (randInt (Z.to_nat size) rng) as [xi rng1] eqn:Hx.
  destruct (randInt (Z.to_nat size) rng1) as [yi rng2] eqn:Hy.
  assert (xi < Z.to_nat size)%nat as Hxi.
  { pose proof (randInt_lt (Z.to_nat size) rng) as H. rewrite Hx in H.
    apply H. lia. }
  assert (yi < Z.to_nat size)%nat as Hyi.
  { pose proof (randInt_lt (Z.to_nat size) rng1) as H. rewrite Hy in H.
    apply H. lia. }
  cbv zeta. set (p := mkPos (Z.of_nat xi) (Z.of_nat yi)).
  assert (Hp : inside size p) by (unfold inside; simpl; lia).
  destruct (wf_grid_inside _ _ _ Hwf Hp) as (cell & Hcell & _).
  unfold deref. rewrite Hcell. cbn [mbind result_bind].
  destruct (List.filter (walls_get (walls cell)) directions) as [|d0 ds];
    [by eauto 10|].
  destruct (randInt (length (d0 :: ds)) rng2) as [i rng3] eqn:Hrand.
  assert (i < length (d0 :: ds))%nat as Hi.
  { pose proof (randInt_lt (length (d0 :: ds)) rng2) as H. rewrite Hrand in H.
    by apply H. }
  apply lookup_lt_is_Some_2 in Hi as [dir Hdir]. rewrite Hdir.
  change (mkPos (Z.of_nat xi + dx dir) (Z.of_nat yi + dy dir)) with (neighbor p dir).
  destruct (in_grid size _ _) eqn:Hg; [|by eauto 10].
  apply in_grid_spec in Hg.
  change (mkPos (Z.of_nat xi + dx dir) (Z.of_nat yi + dy dir)) with (neighbor p dir) in Hg.
  destruct (opened_by_open_pair size g p dir Hwf Hp Hg) as (g2 & Hg2 & Hwf2 & Ho & _).
  apply bind_Ok in Hg2 as (g1 & Hg1 & Hg2).
  rewrite Hg1. cbn [mbind result_bind]. rewrite Hg2. cbn [mbind result_bind].
  exists g2, rng3. split_and!; [done..|]. right. by exists p, dir.
Qed.

Lemma braid_steps_spec k size g rng :
  1 ≤ size → wf_grid size g →
  ∃ g' rng', braid_steps k size (g, rng) = Ok (g', rng') ∧ wf_grid size g'
    ∧ only_opened g g'
    ∧ (wall_symmetric size g → wall_symmetric size g')
    ∧ (border_walled size g → border_walled size g').
Proof.
  intros Hsize. revert g rng.
  induction k as [|k IH]; intros g rng Hwf; cbn [braid_steps].
  - exists g, rng. split_and!; try done. by intros q d.
  - destruct (braid_step_spec size g rng Hsize Hwf) as (g1 & rng1 & Hstep & Hwf1 & Hrel).
    rewrite Hstep. cbn [mbind result_bind].
    destruct (IH g1 rng1 Hwf1) as (g' & rng' & Hrun & Hwf' & Hopen & Hsym & Hborder).
    exists g', rng'. split_and!; [done..| | |].
    + destruct Hrel as [->|(p & d & _ & _ & Ho)]; [done|].
      intros q d' Hq. by apply Hopen, (opened_by_only_opened _ _ _ Ho).
    + intros Hs. apply Hsym. destruct Hrel as [->|(p & d & _ & _ & Ho)]; [done|].
      exact (opened_symmetric size g g1 p d Ho Hs).
    + intros Hb. apply Hborder. destruct Hrel as [->|(p & d & Hp & Hn & Ho)]; [done|].
      exact (opened_border size g g1 p d Hp Hn Ho Hb).
Qed.

(** ** A connected maze has at least as many openings as a spanning tree *)

Lemma rtc_crossing (R : relation Position) (S : list Position) a c :
  rtc R a c → a ∈ S → c ∉ S → ∃ x y, x ∈ S ∧ (y ∉ S) ∧ R x y.
Proof.
  induction 1 as [a|a b c Hab Hbc IH]; intros Ha Hc; [done|].
  destruct (decide (b ∈ S)) as [Hb|Hb]; [by apply IH | by exists a, b].
Qed.

Lemma linked_inside size g a b :
  wf_grid size g → linked g a b → inside size a ∧ inside size b.
Proof.
  intros Hwf (d & -> & [H1 H2]%andb_true_iff). simpl in *.
  unfold has_wall in H1, H2. split.
  - destruct (cell_at g a) as [c|] eqn:Hc; [|done].
    by destruct (wf_grid_cell _ _ _ _ Hwf Hc).
  - destruct (cell_at g (neighbor a d)) as [c|] eqn:Hc; [|done].
    by destruct (wf_grid_cell _ _ _ _ Hwf Hc).
Qed.

Lemma canonical_pair_spec size g a d :
  wf_grid size g → open_pair g (a, d) = true →
  canonical_pair a d ∈ wall_pairs size
  ∧ open_pair g (canonical_pair a d) = true
  ∧ (canonical_pair a d = (a, d) ∨ canonical_pair a d = mirror (a, d)).
Proof.
  intros Hwf Hopen.
  destruct (linked_inside size g a (neighbor a d) Hwf) as [Ha Hn]; [by exists d|].
  split_and!.
  - unfold canonical_pair, mirror. simpl.
    destruct d; apply elem_of_wall_pairs; simpl; rewrite ?neighbor_back; auto.
  - unfold canonical_pair. destruct d; by rewrite ?open_pair_mirror.
  - unfold canonical_pair. destruct d; auto.
Qed.

Lemma spanning_edges size g :
  1 ≤ size → wf_grid size g → connected size g →
  ∀ n, (n < length (all_cells size))%nat →
  ∃ (S : list Position) (F : list (Position * Dir)),
    NoDup S ∧ length S = Datatypes.S n ∧ mkPos 0 0 ∈ S
    ∧ (∀ p, p ∈ S → inside size p)
    ∧ NoDup F ∧ length F = n
    ∧ ∀ e, e ∈ F → e ∈ wall_pairs size ∧ open_pair g e = true
                   ∧ e.1 ∈ S ∧ neighbor e.1 e.2 ∈ S.
Proof.
  intros Hsize Hwf Hconn.
  assert (H00 : inside size (mkPos 0 0)) by (unfold inside; simpl; lia).
  induction n as [|n IH]; intros Hn.
  - exists [mkPos 0 0], []. split_and!; try done.
    + apply NoDup_singleton.
    + left.
    + by intros p ->%list_elem_of_singleton.
    + apply NoDup_nil_2.
    + by intros e ?%elem_of_nil.
  - destruct IH as (S & F & HS & HlenS & Hroot & Hin & HF & HlenF & Hedges); [lia|].
    assert (∃ c, inside size c ∧ c ∉ S) as (c & Hc & HcS).
    { destruct (decide (Forall (λ c, c ∈ S) (all_cells size))) as [Hall|Hall].
      - rewrite Forall_forall in Hall.
        assert (length (all_cells size) ≤ length S)%nat; [|lia].
        apply submseteq_length, NoDup_submseteq; [apply NoDup_all_cells | done].
      - apply not_Forall_Exists in Hall; [|apply _].
        apply Exists_exists in Hall as (c & Hc & HcS).
        exists c. split; [by apply elem_of_all_cells | done]. }
    destruct (rtc_crossing (linked g) S (mkPos 0 0) c) as (x & y & Hx & Hy & Hxy);
      [by apply Hconn | done..|].
    destruct Hxy as (d & -> & Hopen).
    destruct (canonical_pair_spec size g x d Hwf Hopen) as (Hcan & Hcopen & Hcase).
    destruct (linked_inside size g x (neighbor x d) Hwf) as [_ Hyin]; [by exists d|].
    exists (neighbor x d :: S), (canonical_pair x d :: F). split_and!.
    + by apply NoDup_cons.
    + simpl. by rewrite HlenS.
    + by right.
    + intros p [->|Hp]%elem_of_cons; auto.
    + apply NoDup_cons. split; [|done]. intros HinF.
      destruct (Hedges _ HinF) as (_ & _ & H1 & H2).
      destruct Hcase as [Heq|Heq]; rewrite Heq in H1, H2; unfold mirror in *; simpl in *.
      * done.
      * done.
    + simpl. by rewrite HlenF.
    + intros e [->|He]%elem_of_cons.
      * split_and!; [done..| |].
        -- destruct Hcase as [-> | ->]; unfold mirror; simpl; [by right | left].
        -- destruct Hcase as [-> | ->]; unfold mirror; simpl;
             rewrite ?neighbor_back; [left | by right].
      * destruct (Hedges _ He) as (? & ? & ? & ?). split_and!; [done..| |]; by right.
Qed.

Lemma connected_openings size g :
  1 ≤ size → wf_grid size g → connected size g →
  size * size - 1 ≤ Z.of_nat (openings size g).
Proof.
  intros Hsize Hwf Hconn.
  assert (0 < length (all_cells size))%nat as Hpos by (rewrite length_all_cells; nia).
  destruct (spanning_edges size g Hsize Hwf Hconn (length (all_cells size) - 1))
    as (S & F & _ & _ & _ & _ & HF & HlenF & Hedges); [lia|].
  assert (length F ≤ openings size g)%nat.
  { apply submseteq_length, NoDup_submseteq; [done|].
    intros e He. apply list_elem_of_filter. destruct (Hedges e He) as (? & ? & _).
    done. }
  rewrite length_all_cells in HlenF. nia.
Qed.

(** ** The generated maze *)

Lemma carve_inv_connected size st :
  carve_inv size st → cs_stack st = [] → connected size (cs_grid st).
Proof.
  intros Hinv Hend a b Ha Hb.
  destruct (tree_path_exists _ _ a b (ci_tree _ _ Hinv)) as (p & Hp & _);
    [by apply (carve_inv_all_marked size)..|].
  by eapply walk_rtc.
Qed.

Lemma carve_TypeError fuel size rng : size ≤ 0 → carve fuel size rng = TypeError.
Proof.
  intros Hsize. unfold carve, carve_init, mark_visited, update_cell.
  rewrite cell_at_initGrid. rewrite decide_False; [done|].
  unfold inside. simpl. lia.
Qed.

Lemma generateMaze_total difficulty size rng :
  1 ≤ size →
  ∃ g, (∀ fuel, 2 * size * size ≤ Z.of_nat fuel →
          generateMaze fuel difficulty size rng = Ok g)
    ∧ wf_grid size g ∧ wall_symmetric size g ∧ border_walled size g
    ∧ connected size g.
Proof.
  intros Hsize. destruct (carve_total size rng Hsize) as (st & Hinv & Hend & Hrun).
  pose proof (carve_inv_connected _ _ Hinv Hend) as Hconn.
  destruct (braid_steps_spec (extraPaths size) size (cs_grid st) (cs_rng st) Hsize
              (ci_wf _ _ Hinv)) as (g' & rng' & Hbraid & Hwf' & Hopen & Hsym & Hborder).
  destruct difficulty.
  - exists (cs_grid st). split_and!; try apply Hinv; [|done].
    intros fuel Hfuel. unfold generateMaze. by rewrite (Hrun fuel Hfuel).
  - exists g'. split_and!; [|done|by apply Hsym, Hinv|by apply Hborder, Hinv|].
    + intros fuel Hfuel. unfold generateMaze. rewrite (Hrun fuel Hfuel).
      cbn [mbind result_bind]. by rewrite Hbraid.
    + by eapply only_opened_connected.
  - exists (cs_grid st). split_and!; try apply Hinv; [|done].
    intros fuel Hfuel. unfold generateMaze. by rewrite (Hrun fuel Hfuel).
Qed.

Lemma carve_more fuel size rng st :
  carve fuel size rng = Ok st → ∀ m, (fuel ≤ m)%nat → carve m size rng = Ok st.
Proof.
  unfold carve, carve_loop. intros H m Hm.
  apply bind_Ok in H as (st0 & Hinit & H). apply bind_Ok in H as (st' & Hrun & H).
  destruct (cs_stack st') eqn:Hend; [|done]. injection H as <-.
  rewrite Hinit. cbn [mbind result_bind].
  rewrite (carve_steps_more _ _ _ _ Hrun Hend m Hm). cbn [mbind result_bind].
  by rewrite Hend.
Qed.

Lemma generateMaze_more fuel difficulty size rng g :
  generateMaze fuel difficulty size rng = Ok g →
  ∀ m, (fuel ≤ m)%nat → generateMaze m difficulty size rng = Ok g.
Proof.
  unfold generateMaze. intros H m Hm. apply bind_Ok in H as (st & Hcarve & H).
  by rewrite (carve_more _ _ _ _ Hcarve m Hm).
Qed.

(** Whatever the fuel, a maze that generateMaze returns is the one it
    returns with enough fuel. *)
Lemma generateMaze_Ok fuel difficulty size rng g :
  generateMaze fuel difficulty size rng = Ok g →
  1 ≤ size ∧ wf_grid size g ∧ wall_symmetric size g ∧ border_walled size g
  ∧ connected size g.
Proof.
  intros H. destruct (decide (1 ≤ size)) as [Hsize|Hsize].
  - destruct (generateMaze_total difficulty size rng Hsize) as (g' & Hg' & Hprops).
    specialize (Hg' (fuel `max` Z.to_nat (2 * size * size))%nat ltac:(lia)).
    rewrite (generateMaze_more _ _ _ _ _ H) in Hg' by lia.
    injection Hg' as ->. by split.
  - unfold generateMaze in H. by rewrite carve_TypeError in H by lia.
Qed.

Lemma sample_maze_spec : wf_grid 3 sample_maze ∧ connected 3 sample_maze.
Proof.
  destruct (generateMaze_total Easy 3 sample_rng) as (g & Hg & Hwf & _ & _ & Hconn);
    [lia|].
  specialize (Hg 18%nat ltac:(lia)).
  assert (generateMaze 18 Easy 3 sample_rng = Ok sample_maze) as Heq
    by (vm_compute; reflexivity).
  assert (g = sample_maze) as -> by congruence.
  split; assumption.
Qed.

(** ** movePlayer *)

Lemma movePlayer_maze cfg st dx dy now now' st' :
  movePlayer cfg st dx dy now now' = Ok st' → maze st' = maze st.
Proof.
  unfold movePlayer. intros H.
  repeat match type of H with
         | (if ?b then _ else _) = _ => destruct b
         | match ?r with Some _ => _ | None => _ end = _ => destruct r; [|done]
         | (_ ≫= _) = _ => apply bind_Ok in H as (? & _ & H)
         | Ok _ = Ok _ => injection H as <-
         end; done.
Qed.

Lemma play_maze cfg st inputs st' :
  play cfg st inputs = Ok st' → maze st' = maze st.
Proof.
  revert st. induction inputs as [|[[d now] now'] rest IH]; intros st H; simpl in H.
  - by injection H as <-.
  - apply bind_Ok in H as (st1 & Hmove & H). rewrite (IH _ H).
    by apply movePlayer_maze in Hmove.
Qed.

Lemma has_wall_stands size g p d :
  wf_grid size g → inside size p → has_wall g p d = true → wall_stands g p d.
Proof.
  intros Hwf Hp Hw. destruct (wf_grid_inside _ _ _ Hwf Hp) as (c & Hc & _).
  exists c. split; [done|]. unfold has_wall in Hw. by rewrite Hc in Hw.
Qed.

(** What a directional input does: it is taken as a move or changes
    nothing. *)
Lemma attemptMove_accepted cfg st d now now' :
  accepted cfg st d now →
  attemptMove cfg st d now now'
    = Ok (moved_to cfg st (neighbor (playerPos st) d) now now').
Proof.
  intros (Hplaying & Hcool & Hin & Hw). unfold attemptMove, movePlayer.
  unfold has_wall in Hw.
  destruct (cell_at (maze st) (playerPos st)) as [c|] eqn:Hc; [|done].
  rewrite Hplaying. rewrite bool_decide_true by done.
  assert (length (maze st) ≠ O) as Hlen.
  { intros Hnil. apply nil_length_inv in Hnil. unfold cell_at, row_at in Hc.
    rewrite Hnil in Hc. by case_bool_decide. }
  rewrite bool_decide_false by done. cbn [negb orb].
  assert ((now - lastMoveTime st <? MOVE_COOLDOWN) = false) as -> by lia.
  assert (Hbounds : ((pos_x (playerPos st) + dx d <? 0)
                     || (size cfg <=? pos_x (playerPos st) + dx d)
                     || (pos_y (playerPos st) + dy d <? 0)
                     || (size cfg <=? pos_y (playerPos st) + dy d)) = false).
  { unfold inside, neighbor in Hin. simpl in Hin. rewrite !orb_false_iff. lia. }
  rewrite Hbounds. destruct (cell_at_row _ _ _ Hc) as (row & -> & ->).
  assert (blocked (dx d =? 1) (Some c) w_right = Ok false) as ->
    by (destruct d; simpl in *; by rewrite ?Hw).
  assert (blocked (dx d =? -1) (Some c) w_left = Ok false) as ->
    by (destruct d; simpl in *; by rewrite ?Hw).
  assert (blocked (dy d =? 1) (Some c) w_bottom = Ok false) as ->
    by (destruct d; simpl in *; by rewrite ?Hw).
  assert (blocked (dy d =? -1) (Some c) w_top = Ok false) as ->
    by (destruct d; simpl in *; by rewrite ?Hw).
  cbn [mbind result_bind]. unfold moved_to, goal, neighbor, maxScoreOf.
  rewrite ?Hplaying. case_bool_decide as Hgoal.
  - injection Hgoal as Hx Hy. rewrite Hx, Hy, !Z.eqb_refl. cbn [andb].
    cbn [moveCount playerPos maze trail lastMoveTime startTime effects].
    by rewrite <- (assoc_L (++)).
  - destruct (_ && _) eqn:Heq; [|done].
    apply andb_true_iff in Heq as [Hx Hy]. destruct Hgoal. f_equal; lia.
Qed.

Lemma attemptMove_not_accepted cfg st d now now' :
  ¬ accepted cfg st d now →
  is_Some (cell_at (maze st) (playerPos st)) →
  attemptMove cfg st d now now' = Ok st.
Proof.
  intros Hno [c Hc]. unfold attemptMove, movePlayer.
  destruct (bool_decide_reflect (gameState st = Playing)) as [Hplaying|]; [|done].
  cbn [negb orb]. destruct (bool_decide _); [done|].
  destruct (_ <? MOVE_COOLDOWN) eqn:Hcool; [done|].
  destruct (_ || _ || _ || _) eqn:Hbounds; [done|].
  destruct (cell_at_row _ _ _ Hc) as (row & -> & ->).
  assert (walls_get (walls c) d = true) as Hw.
  { destruct (walls_get (walls c) d) eqn:Hw; [done|]. destruct Hno.
    split_and!; [done | lia | |].
    - unfold inside, neighbor. simpl. rewrite !orb_false_iff in Hbounds. lia.
    - unfold has_wall. by rewrite Hc. }
  destruct d; simpl in *; by rewrite Hw.
Qed.

Lemma moved_to_fields cfg st p now now' :
  maze (moved_to cfg st p now now') = maze st
  ∧ playerPos (moved_to cfg st p now now') = p
  ∧ moveCount (moved_to cfg st p now now') = moveCount st + 1
  ∧ trail (moved_to cfg st p now now') = trail st ++ [p]
  ∧ lastMoveTime (moved_to cfg st p now now') = now
  ∧ startTime (moved_to cfg st p now now') = startTime st
  ∧ gameState (moved_to cfg st p now now')
      = (if bool_decide (p = goal cfg) then Won else gameState st).
Proof. unfold moved_to. by case_bool_decide. Qed.

(** ** Examples *)

(** A maze of size 5: the loop takes 49 iterations, pushes and pops 25
    cells and leaves 24 openings. *)
Example carve_5 :
  (st ← carve 49 5 sample_rng;
   Ok (cs_stack st, cs_pushes st, cs_pops st, openings 5 (cs_grid st)))
  = Ok ([], 25%nat, 25%nat, 24%nat).
Proof. vm_compute. reflexivity. Qed.

Example carve_5_short : carve 48 5 sample_rng = OutOfFuel.
Proof. vm_compute. reflexivity. Qed.

(** Hard mode at size 17 adds up to 14 openings to the 288 of the tree. *)
Example generateMaze_hard_17 :
  (g ← generateMaze 600 Hard 17 sample_rng; Ok (openings 17 g)) = Ok 302%nat.
Proof. vm_compute. reflexivity. Qed.

(** * Properties of the specification *)

(** C1. For every size of two or more and every random source, the carving
    phase of generateMaze ends (given enough fuel, and in a state that does
    not depend on the fuel) with exactly [size * size - 1] open wall pairs,
    and the graph of the open wall pairs over the cells is connected and
    acyclic: any two cells are joined by exactly one simple path. *)
Theorem carve_spanning_tree size rng :
  2 ≤ size →
  ∃ st, (∀ fuel, 2 * size * size ≤ Z.of_nat fuel → carve fuel size rng = Ok st)
    ∧ Z.of_nat (openings size (cs_grid st)) = size * size - 1
    ∧ connected size (cs_grid st)
    ∧ acyclic (cs_grid st)
    ∧ ∀ a b, inside size a → inside size b →
        ∃ p, simple_path (cs_grid st) a b p
             ∧ ∀ q, simple_path (cs_grid st) a b q → q = p.
Proof.
  intros Hsize.
  destruct (carve_total size rng) as (st & Hinv & Hend & Hrun); [lia|].
  exists st. split_and!.
  - done.
  - pose proof (carve_inv_all_count size st ltac:(lia) Hinv Hend) as Hcount.
    pose proof (ci_open _ _ Hinv). lia.
  - by apply carve_inv_connected.
  - intros a b p [Hp Hnd] Hlen.
    by apply (tree_no_cycle _ _ a b p (ci_tree _ _ Hinv)).
  - intros a b Ha Hb.
    destruct (tree_path_exists _ _ a b (ci_tree _ _ Hinv)) as (p & Hp & Hnd & _);
      [by apply (carve_inv_all_marked size)..|].
    exists p. split; [done|]. intros q [Hq Hndq].
    by apply (tree_path_unique _ _ a b q p (ci_tree _ _ Hinv)).
Qed.

Lemma carve_spanning_tree_witness :
  ∃ st, (∀ fuel, 2 * 3 * 3 ≤ Z.of_nat fuel → carve fuel 3 sample_rng = Ok st)
    ∧ Z.of_nat (openings 3 (cs_grid st)) = 3 * 3 - 1
    ∧ connected 3 (cs_grid st)
    ∧ acyclic (cs_grid st)
    ∧ ∀ a b, inside 3 a → inside 3 b →
        ∃ p, simple_path (cs_grid st) a b p
             ∧ ∀ q, simple_path (cs_grid st) a b q → q = p.
Proof. apply (carve_spanning_tree 3 sample_rng). lia. Defined.

(** C9. For every size of two or more the stack-based carving loop is
    total: run with enough fuel it empties its stack, having performed
    exactly [size * size] pushes and [size * size] pops, and having set the
    visited flag of every cell exactly once (the cells marked are a
    permutation of the cells of the grid). *)
Theorem carve_push_pop_count size rng :
  2 ≤ size →
  ∃ st, (∀ fuel, 2 * size * size ≤ Z.of_nat fuel → carve fuel size rng = Ok st)
    ∧ cs_stack st = []
    ∧ Z.of_nat (cs_pushes st) = size * size
    ∧ Z.of_nat (cs_pops st) = size * size
    ∧ cs_marked st ≡ₚ all_cells size
    ∧ ∀ p, inside size p → is_visited (cs_grid st) p = true.
Proof.
  intros Hsize.
  destruct (carve_total size rng) as (st & Hinv & Hend & Hrun); [lia|].
  pose proof (carve_inv_all_count size st ltac:(lia) Hinv Hend) as Hcount.
  pose proof (ci_pushes _ _ Hinv) as Hpush.
  pose proof (ci_pops _ _ Hinv) as Hpop. rewrite Hend in Hpop. simpl in Hpop.
  exists st. split_and!; [done | done | lia | lia | |].
  - apply NoDup_Permutation; [apply (ci_nodup _ _ Hinv) | apply NoDup_all_cells |].
    intros p. rewrite elem_of_all_cells.
    split; [by apply carve_inv_inside | by apply carve_inv_all_marked].
  - intros p Hp. by apply (ci_marked _ _ Hinv), (carve_inv_all_marked size).
Qed.

Lemma carve_push_pop_count_witness :
  ∃ st, (∀ fuel, 2 * 3 * 3 ≤ Z.of_nat fuel → carve fuel 3 sample_rng = Ok st)
    ∧ cs_stack st = []
    ∧ Z.of_nat (cs_pushes st) = 3 * 3
    ∧ Z.of_nat (cs_pops st) = 3 * 3
    ∧ cs_marked st ≡ₚ all_cells 3
    ∧ ∀ p, inside 3 p → is_visited (cs_grid st) p = true.
Proof. apply (carve_push_pop_count 3 sample_rng). lia. Defined.

(** C3 (as the code has it). generateMaze does not validate its size: a
    size of zero or less fails only because reading [grid[0][0]] of the
    empty grid throws, and every size from one on is accepted. For those the
    grid builder yields [size] rows of [size] cells, each with its own
    coordinates, all four walls and [visited = false], and generateMaze
    returns a grid of that shape. *)
Theorem generateMaze_size_check difficulty size rng :
  (size ≤ 0 → ∀ fuel, generateMaze fuel difficulty size rng = TypeError)
  ∧ (1 ≤ size →
      length (initGrid size) = Z.to_nat size
      ∧ (∀ row, row ∈ initGrid size → length row = Z.to_nat size)
      ∧ (∀ p, inside size p →
           cell_at (initGrid size) p =
             Some (mkCell (pos_x p) (pos_y p) (mkWalls true true true true) false))
      ∧ ∃ g, (∀ fuel, 2 * size * size ≤ Z.of_nat fuel →
                generateMaze fuel difficulty size rng = Ok g)
             ∧ wf_grid size g).
Proof.
  split.
  - intros Hsize fuel. unfold generateMaze. by rewrite carve_TypeError.
  - intros Hsize. split_and!.
    + unfold initGrid. by rewrite length_fmap, length_seqZ.
    + unfold initGrid. intros row (y & -> & _)%list_elem_of_fmap.
      by rewrite length_fmap, length_seqZ.
    + intros p Hp. rewrite cell_at_initGrid. by rewrite decide_True.
    + destruct (generateMaze_total difficulty size rng Hsize) as (g & Hg & Hwf & _).
      by exists g.
Qed.

Lemma generateMaze_size_check_witness :
  (∀ fuel, generateMaze fuel Easy 0 sample_rng = TypeError)
  ∧ length (initGrid 3) = Z.to_nat 3
  ∧ (∀ row, row ∈ initGrid 3 → length row = Z.to_nat 3)
  ∧ (∀ p, inside 3 p →
       cell_at (initGrid 3) p =
         Some (mkCell (pos_x p) (pos_y p) (mkWalls true true true true) false))
  ∧ ∃ g, (∀ fuel, 2 * 3 * 3 ≤ Z.of_nat fuel →
            generateMaze fuel Easy 3 sample_rng = Ok g)
         ∧ wf_grid 3 g.
Proof.
  split.
  - apply (proj1 (generateMaze_size_check Easy 0 sample_rng)). lia.
  - apply (proj2 (generateMaze_size_check Easy 3 sample_rng)). lia.
Defined.

(** C3 as stated fails: size 1 is below 2 and yet generateMaze returns a
    (single-cell) maze for it. *)
Lemma generateMaze_accepts_size_1 :
  1 < 2 ∧
  generateMaze 2 Easy 1 sample_rng
    = Ok [[mkCell 0 0 (mkWalls true true true true) true]].
Proof. split; [lia | reflexivity]. Qed.

(** C10. For every size, difficulty and random source, a maze that
    generateMaze returns has all its outward walls: the top wall of every
    cell of row 0, the bottom wall of every cell of the last row, the left
    wall of every cell of column 0 and the right wall of every cell of the
    last column. (It returns one for every size from one on.) *)
Theorem border_walls_kept difficulty size rng :
  (1 ≤ size →
     ∃ g, ∀ fuel, 2 * size * size ≤ Z.of_nat fuel →
       generateMaze fuel difficulty size rng = Ok g)
  ∧ ∀ fuel g, generateMaze fuel difficulty size rng = Ok g →
      ∀ i, 0 ≤ i < size →
        wall_stands g (mkPos i 0) Top
        ∧ wall_stands g (mkPos i (size - 1)) Bottom
        ∧ wall_stands g (mkPos 0 i) Left
        ∧ wall_stands g (mkPos (size - 1) i) Right.
Proof.
  split.
  - intros Hsize.
    destruct (generateMaze_total difficulty size rng Hsize) as (g & Hg & _).
    by exists g.
  - intros fuel g (_ & Hwf & _ & Hborder & _)%generateMaze_Ok i Hi.
    split_and!; (eapply has_wall_stands; [done | |apply Hborder]);
      unfold inside, neighbor; simpl; lia.
Qed.

Lemma border_walls_kept_witness :
  (∃ g, ∀ fuel, 2 * 3 * 3 ≤ Z.of_nat fuel →
     generateMaze fuel Easy 3 sample_rng = Ok g)
  ∧ ∀ i, 0 ≤ i < 3 →
      wall_stands sample_maze (mkPos i 0) Top
      ∧ wall_stands sample_maze (mkPos i (3 - 1)) Bottom
      ∧ wall_stands sample_maze (mkPos 0 i) Left
      ∧ wall_stands sample_maze (mkPos (3 - 1) i) Right.
Proof.
  split.
  - apply (proj1 (border_walls_kept Easy 3 sample_rng)). lia.
  - apply (proj2 (border_walls_kept Easy 3 sample_rng) 18%nat sample_maze).
    vm_compute. reflexivity.
Defined.

(** C6. Run on any [size] by [size] maze that is connected, for any number
    of iterations and any random source, the braiding loop ends without
    error in a maze that is still connected (so start and goal reach each
    other), has at least [size * size - 1] open wall pairs, and has every
    opening the maze had before: braiding clears wall flags and never sets
    one. *)
Theorem braiding_keeps_connected size g rng k :
  1 ≤ size → wf_grid size g → connected size g →
  ∃ g' rng', braid_steps k size (g, rng) = Ok (g', rng')
    ∧ connected size g'
    ∧ rtc (linked g') (mkPos 0 0) (mkPos (size - 1) (size - 1))
    ∧ rtc (linked g') (mkPos (size - 1) (size - 1)) (mkPos 0 0)
    ∧ size * size - 1 ≤ Z.of_nat (openings size g')
    ∧ (openings size g ≤ openings size g')%nat
    ∧ only_opened g g'.
Proof.
  intros Hsize Hwf Hconn.
  destruct (braid_steps_spec k size g rng Hsize Hwf)
    as (g' & rng' & Hbraid & Hwf' & Hopen & _).
  pose proof (only_opened_connected size g g' Hopen Hconn) as Hconn'.
  assert (inside size (mkPos 0 0)) by (unfold inside; simpl; lia).
  assert (inside size (mkPos (size - 1) (size - 1))) by (unfold inside; simpl; lia).
  exists g', rng'. split_and!; auto.
  - by apply connected_openings.
  - by apply only_opened_openings.
Qed.

(** C7. Walls are cleared in matched pairs at every point: after any number
    of iterations of the carving loop, after any number of iterations of the
    braiding loop that follows it, and in the maze generateMaze returns, the
    wall flag of a cell towards an in-grid neighbour equals the neighbour's
    flag towards the cell; and the maze of every state the game reaches by
    playing is that very maze. *)
Theorem walls_always_matched size rng :
  1 ≤ size →
  (∀ n, ∃ st, (carve_init (initGrid size) rng ≫= carve_steps n size) = Ok st
              ∧ wf_grid size (cs_grid st)
              ∧ wall_symmetric size (cs_grid st))
  ∧ (∃ st, (∀ fuel, 2 * size * size ≤ Z.of_nat fuel → carve fuel size rng = Ok st)
           ∧ ∀ k, ∃ s, braid_steps k size (cs_grid st, cs_rng st) = Ok s
                       ∧ wf_grid size s.1
                       ∧ wall_symmetric size s.1)
  ∧ (∀ difficulty,
       ∃ g, (∀ fuel, 2 * size * size ≤ Z.of_nat fuel →
               generateMaze fuel difficulty size rng = Ok g)
            ∧ wf_grid size g
            ∧ wall_symmetric size g
            ∧ ∀ cfg lastMove now inputs st',
                play cfg (newGame g lastMove now) inputs = Ok st' →
                maze st' = g).
Proof.
  intros Hsize. split_and!.
  - intros n. destruct (carve_init_inv size rng Hsize) as (st0 & Hinit & Hinv0 & _).
    destruct (carve_steps_inv n size st0 Hinv0) as (st & Hrun & Hinv & _).
    exists st. rewrite Hinit. split_and!; [done | apply Hinv..].
  - destruct (carve_total size rng Hsize) as (st & Hinv & Hend & Hrun).
    exists st. split; [done|]. intros k.
    destruct (braid_steps_spec k size (cs_grid st) (cs_rng st) Hsize (ci_wf _ _ Hinv))
      as (g' & rng' & Hbraid & Hwf' & _ & Hsym & _).
    exists (g', rng'). split_and!; [done..|]. apply Hsym, Hinv.
  - intros difficulty.
    destruct (generateMaze_total difficulty size rng Hsize) as (g & Hg & Hwf & Hsym & _).
    exists g. split_and!; [done..|].
    intros cfg lastMove now inputs st' Hplay. by rewrite (play_maze _ _ _ _ Hplay).
Qed.

Lemma walls_always_matched_witness :
  (∀ n, ∃ st, (carve_init (initGrid 3) sample_rng ≫= carve_steps n 3) = Ok st
              ∧ wf_grid 3 (cs_grid st)
              ∧ wall_symmetric 3 (cs_grid st))
  ∧ (∃ st, (∀ fuel, 2 * 3 * 3 ≤ Z.of_nat fuel → carve fuel 3 sample_rng = Ok st)
           ∧ ∀ k, ∃ s, braid_steps k 3 (cs_grid st, cs_rng st) = Ok s
                       ∧ wf_grid 3 s.1
                       ∧ wall_symmetric 3 s.1)
  ∧ (∀ difficulty,
       ∃ g, (∀ fuel, 2 * 3 * 3 ≤ Z.of_nat fuel →
               generateMaze fuel difficulty 3 sample_rng = Ok g)
            ∧ wf_grid 3 g
            ∧ wall_symmetric 3 g
            ∧ ∀ cfg lastMove now inputs st',
                play cfg (newGame g lastMove now) inputs = Ok st' →
                maze st' = g).
Proof. apply (walls_always_matched 3 sample_rng). lia. Defined.

Lemma braiding_keeps_connected_witness :
  ∃ g' rng', braid_steps 4 3 (sample_maze, sample_rng) = Ok (g', rng')
    ∧ connected 3 g'
    ∧ rtc (linked g') (mkPos 0 0) (mkPos (3 - 1) (3 - 1))
    ∧ rtc (linked g') (mkPos (3 - 1) (3 - 1)) (mkPos 0 0)
    ∧ 3 * 3 - 1 ≤ Z.of_nat (openings 3 g')
    ∧ (openings 3 sample_maze ≤ openings 3 g')%nat
    ∧ only_opened sample_maze g'.
Proof.
  apply (braiding_keeps_connected 3 sample_maze sample_rng 4).
  - lia.
  - apply sample_maze_spec.
  - apply sample_maze_spec.
Defined.

(** C2. A directional input whose target cell lies outside the grid, or
    that runs into a standing wall of the player's cell, is rejected without
    an error and leaves the whole state (game state, position, move count,
    trail, time of the last move) as it was. *)
Theorem attemptMove_rejects cfg st d now now' :
  ¬ inside (size cfg) (neighbor (playerPos st) d)
    ∨ wall_stands (maze st) (playerPos st) d →
  attemptMove cfg st d now now' = Ok st.
Proof.
  intros Hrej. unfold attemptMove, movePlayer.
  destruct (negb _ || _); [done|]. destruct (_ <? MOVE_COOLDOWN); [done|].
  destruct (_ || _ || _ || _) eqn:Hbounds; [done|].
  destruct Hrej as [Hout | (c & Hc & Hw)].
  - destruct Hout. unfold inside, neighbor. simpl.
    rewrite !orb_false_iff in Hbounds. lia.
  - destruct (cell_at_row _ _ _ Hc) as (row & -> & ->).
    destruct d; simpl in *; by rewrite Hw.
Qed.

Lemma attemptMove_rejects_witness :
  attemptMove (mkConfig 3 0 Infinity) (newGame sample_maze 0 0) Top 1000 1000
    = Ok (newGame sample_maze 0 0).
Proof.
  apply (attemptMove_rejects (mkConfig 3 0 Infinity) (newGame sample_maze 0 0) Top).
  left. unfold inside, neighbor. simpl. lia.
Defined.

(** C4 (as the code has it). In the playing state, an input whose target
    cell is inside the grid and not walled off from the player's cell moves
    the player there, provided at least MOVE_COOLDOWN milliseconds have
    passed since the last accepted move: the cooldown is checked by
    movePlayer itself. The move adds one to the move count, extends the
    trail and records the time. *)
Theorem attemptMove_moves cfg st d now now' c :
  gameState st = Playing →
  MOVE_COOLDOWN ≤ now - lastMoveTime st →
  inside (size cfg) (neighbor (playerPos st) d) →
  cell_at (maze st) (playerPos st) = Some c →
  walls_get (walls c) d = false →
  ∃ st', attemptMove cfg st d now now' = Ok st'
    ∧ playerPos st' = neighbor (playerPos st) d
    ∧ moveCount st' = moveCount st + 1
    ∧ trail st' = trail st ++ [neighbor (playerPos st) d]
    ∧ lastMoveTime st' = now
    ∧ maze st' = maze st.
Proof.
  intros Hplaying Hcool Hin Hc Hw. unfold attemptMove, movePlayer.
  rewrite Hplaying. rewrite bool_decide_true by done.
  assert (length (maze st) ≠ O) as Hlen.
  { intros Hnil. apply nil_length_inv in Hnil. unfold cell_at, row_at in Hc.
    rewrite Hnil in Hc. by case_bool_decide. }
  rewrite bool_decide_false by done. cbn [negb orb].
  assert ((now - lastMoveTime st <? MOVE_COOLDOWN) = false) as -> by lia.
  assert (Hbounds : ((pos_x (playerPos st) + dx d <? 0)
                     || (size cfg <=? pos_x (playerPos st) + dx d)
                     || (pos_y (playerPos st) + dy d <? 0)
                     || (size cfg <=? pos_y (playerPos st) + dy d)) = false).
  { unfold inside, neighbor in Hin. simpl in Hin. rewrite !orb_false_iff. lia. }
  rewrite Hbounds. destruct (cell_at_row _ _ _ Hc) as (row & -> & ->).
  assert (blocked (dx d =? 1) (Some c) w_right = Ok false) as ->
    by (destruct d; simpl in *; by rewrite ?Hw).
  assert (blocked (dx d =? -1) (Some c) w_left = Ok false) as ->
    by (destruct d; simpl in *; by rewrite ?Hw).
  assert (blocked (dy d =? 1) (Some c) w_bottom = Ok false) as ->
    by (destruct d; simpl in *; by rewrite ?Hw).
  assert (blocked (dy d =? -1) (Some c) w_top = Ok false) as ->
    by (destruct d; simpl in *; by rewrite ?Hw).
  cbn [mbind result_bind].
  destruct (_ && _); eexists; (split; [done|]); by split_and!.
Qed.

Lemma attemptMove_moves_witness :
  ∃ st', attemptMove (mkConfig 3 0 Infinity) (newGame sample_maze 0 0) Bottom 1000 1000
           = Ok st'
    ∧ playerPos st' = mkPos 0 1
    ∧ moveCount st' = 0 + 1
    ∧ trail st' = [mkPos 0 0] ++ [mkPos 0 1]
    ∧ lastMoveTime st' = 1000
    ∧ maze st' = sample_maze.
Proof.
  eapply (attemptMove_moves (mkConfig 3 0 Infinity) (newGame sample_maze 0 0) Bottom
            1000 1000).
  - reflexivity.
  - vm_compute. discriminate.
  - unfold inside. simpl. lia.
  - reflexivity.
  - reflexivity.
Defined.

(** C4 as stated fails: after a first move at time 1000 the player stands
    in the playing state on cell (0, 1), whose right neighbour is inside the
    grid and not walled off; an input towards it at time 1100 is rejected by
    the cooldown check of movePlayer and the state stays as it was. *)
Lemma attemptMove_cooldown_rejects :
  ∃ st, attemptMove (mkConfig 3 0 Infinity) (newGame sample_maze 0 0) Bottom 1000 1000
          = Ok st
    ∧ gameState st = Playing
    ∧ inside 3 (neighbor (playerPos st) Right)
    ∧ (∃ c, cell_at (maze st) (playerPos st) = Some c
            ∧ walls_get (walls c) Right = false)
    ∧ attemptMove (mkConfig 3 0 Infinity) st Right 1100 1100 = Ok st
    ∧ playerPos st ≠ neighbor (playerPos st) Right.
Proof.
  eexists. split; [reflexivity|]. split_and!.
  - reflexivity.
  - unfold inside. simpl. lia.
  - eexists. split; reflexivity.
  - reflexivity.
  - discriminate.
Qed.

(** C5. For a player standing on a cell of the maze in the playing state, an
    input never fails. When it is taken as a move, the player is on the
    neighbouring cell afterwards, with one more counted move, and the state
    is Won exactly when that position is the goal cell
    [(size - 1, size - 1)]; a move to any other cell leaves the state
    Playing. When it is not taken as a move, nothing changes. So the state
    becomes Won exactly when the input is a move onto the goal cell, and for
    a player who is not on the goal cell already, exactly when the position
    after the call is the goal cell. *)
Theorem attemptMove_won_iff cfg st d now now' c :
  gameState st = Playing →
  cell_at (maze st) (playerPos st) = Some c →
  ∃ st', attemptMove cfg st d now now' = Ok st'
    ∧ (accepted cfg st d now →
         playerPos st' = neighbor (playerPos st) d
         ∧ moveCount st' = moveCount st + 1
         ∧ (gameState st' = Won ↔ playerPos st' = goal cfg)
         ∧ (playerPos st' ≠ goal cfg → gameState st' = Playing))
    ∧ (¬ accepted cfg st d now → st' = st)
    ∧ (gameState st' = Won ↔
         accepted cfg st d now ∧ neighbor (playerPos st) d = goal cfg)
    ∧ (playerPos st ≠ goal cfg →
         (gameState st' = Won ↔ playerPos st' = goal cfg)).
Proof.
  intros Hplaying Hc.
  destruct (decide (accepted cfg st d now)) as [Hacc|Hno].
  - rewrite (attemptMove_accepted _ _ _ _ _ Hacc). eexists. split; [done|].
    destruct (moved_to_fields cfg st (neighbor (playerPos st) d) now now')
      as (_ & -> & -> & _ & _ & _ & ->).
    rewrite Hplaying.
    assert ((if bool_decide (neighbor (playerPos st) d = goal cfg) then Won else Playing)
            = Won ↔ neighbor (playerPos st) d = goal cfg) as Hiff
      by (case_bool_decide; split; done).
    split_and!; [|done|tauto|done].
    intros _. split_and!; [done | done | done |].
    intros Hne. by rewrite bool_decide_false.
  - rewrite attemptMove_not_accepted; [|done|by eexists].
    exists st. split; [done|]. rewrite Hplaying.
    split_and!; [done | done | split; [done | tauto] |].
    intros Hne. split; [done | tauto].
Qed.

Lemma attemptMove_won_iff_witness :
  ∃ st', attemptMove (mkConfig 3 40 Infinity)
           (mkGame Playing 3 (mkPos 1 2) sample_maze [mkPos 0 0] 1000 0 [])
           Right 5000 5001 = Ok st'
    ∧ (accepted (mkConfig 3 40 Infinity)
         (mkGame Playing 3 (mkPos 1 2) sample_maze [mkPos 0 0] 1000 0 []) Right 5000 →
         playerPos st' = mkPos 2 2
         ∧ moveCount st' = 3 + 1
         ∧ (gameState st' = Won ↔ playerPos st' = goal (mkConfig 3 40 Infinity))
         ∧ (playerPos st' ≠ goal (mkConfig 3 40 Infinity) → gameState st' = Playing))
    ∧ (¬ accepted (mkConfig 3 40 Infinity)
           (mkGame Playing 3 (mkPos 1 2) sample_maze [mkPos 0 0] 1000 0 []) Right 5000 →
         st' = mkGame Playing 3 (mkPos 1 2) sample_maze [mkPos 0 0] 1000 0 [])
    ∧ (gameState st' = Won ↔
         accepted (mkConfig 3 40 Infinity)
           (mkGame Playing 3 (mkPos 1 2) sample_maze [mkPos 0 0] 1000 0 []) Right 5000
         ∧ mkPos 2 2 = goal (mkConfig 3 40 Infinity))
    ∧ (mkPos 1 2 ≠ goal (mkConfig 3 40 Infinity) →
         (gameState st' = Won ↔ playerPos st' = goal (mkConfig 3 40 Infinity))).
Proof.
  eapply (attemptMove_won_iff (mkConfig 3 40 Infinity)
            (mkGame Playing 3 (mkPos 1 2) sample_maze [mkPos 0 0] 1000 0 [])
            Right 5000 5001).
  - reflexivity.
  - reflexivity.
Defined.

(** C8. For a finite fog radius [r], a cell is reported visible exactly when
    its Chebyshev distance to the player is at most [r]. With the radius 3
    of the insane setting and the player at (5, 5), cell (9, 9) is not
    visible and cell (7, 6) is. *)
Theorem isVisible_chebyshev n t r player c :
  (isVisible (mkConfig n t (Finite r)) player c = true ↔
     Z.max (Z.abs (pos_x c - pos_x player)) (Z.abs (pos_y c - pos_y player)) ≤ r)
  ∧ isVisible (config Insane) (mkPos 5 5) (mkPos 9 9) = false
  ∧ isVisible (config Insane) (mkPos 5 5) (mkPos 7 6) = true.
Proof.
  split_and!; [|done..].
  unfold isVisible, isInFog. simpl.
  rewrite negb_true_iff, orb_false_iff. lia.
Qed.

(** * Further properties *)

(** ** What a directional input does *)

(** Induction over a game played on the maze [g]. *)
Lemma play_ind cfg g (I : Game → Prop) :
  wf_grid (size cfg) g →
  (∀ st, I st → maze st = g ∧ inside (size cfg) (playerPos st)) →
  (∀ st d now now', I st → accepted cfg st d now →
     I (moved_to cfg st (neighbor (playerPos st) d) now now')) →
  ∀ inputs st, I st → ∃ st', play cfg st inputs = Ok st' ∧ I st'.
Proof.
  intros Hwf Hok Hstep. induction inputs as [|[[d now] now'] rest IH]; intros st HI.
  - by exists st.
  - cbn [play]. destruct (decide (accepted cfg st d now)) as [Hacc|Hno].
    + rewrite (attemptMove_accepted _ _ _ _ _ Hacc). cbn [mbind result_bind].
      apply IH. by apply Hstep.
    + rewrite attemptMove_not_accepted; [by apply IH | done |].
      destruct (Hok st HI) as [-> Hin].
      destruct (wf_grid_inside _ _ _ Hwf Hin) as (c & -> & _). by eexists.
Qed.

Lemma sample_maze_symmetric : wall_symmetric 3 sample_maze.
Proof.
  destruct (generateMaze_total Easy 3 sample_rng) as (g & Hg & _ & Hsym & _);
    [lia|].
  specialize (Hg 18%nat ltac:(lia)).
  assert (generateMaze 18 Easy 3 sample_rng = Ok sample_maze) as Heq
    by (vm_compute; reflexivity).
  by assert (g = sample_maze) as <- by congruence.
Qed.

Lemma movePlayer_early cfg st dx dy now now' :
  gameState st ≠ Playing ∨ now - lastMoveTime st < MOVE_COOLDOWN →
  movePlayer cfg st dx dy now now' = Ok st.
Proof.
  intros H. unfold movePlayer.
  destruct (bool_decide_reflect (gameState st = Playing)) as [Hplaying|]; [|done].
  cbn [negb orb]. destruct (bool_decide _); [done|].
  destruct H as [?|Hcool]; [done|].
  by assert ((now - lastMoveTime st <? MOVE_COOLDOWN) = true) as -> by lia.
Qed.

Lemma completions_app l1 l2 :
  completions (l1 ++ l2) = (completions l1 + completions l2)%nat.
Proof. unfold completions. by rewrite List.filter_app, length_app. Qed.

(** ** Playing on a maze *)

(** X1. On a maze of the configured size, with the player on one of its
    cells, no sequence of directional inputs makes movePlayer throw, the
    maze is never modified and the player never leaves the grid. *)
Theorem play_never_throws cfg st inputs :
  wf_grid (size cfg) (maze st) → inside (size cfg) (playerPos st) →
  ∃ st', play cfg st inputs = Ok st'
    ∧ maze st' = maze st
    ∧ inside (size cfg) (playerPos st').
Proof.
  intros Hwf Hin.
  apply (play_ind cfg (maze st)
           (λ st', maze st' = maze st ∧ inside (size cfg) (playerPos st')));
    [done | done | | done].
  intros st1 d now now' [Hmaze _] (_ & _ & Hin' & _).
  destruct (moved_to_fields cfg st1 (neighbor (playerPos st1) d) now now')
    as (-> & -> & _). done.
Qed.

Lemma play_never_throws_witness :
  ∃ st', play (mkConfig 3 0 Infinity) (newGame sample_maze 0 0)
           [(Bottom, 1000, 1000); (Left, 2000, 2000); (Right, 3000, 3000)] = Ok st'
    ∧ maze st' = sample_maze
    ∧ inside 3 (playerPos st').
Proof.
  apply (play_never_throws (mkConfig 3 0 Infinity) (newGame sample_maze 0 0)).
  - apply sample_maze_spec.
  - unfold inside. simpl. lia.
Defined.

(** X2. On a maze whose walls agree on both sides, the trail of a game is a
    walk from the start cell to the player's cell along open wall pairs, and
    the move count is the number of its steps. *)
Theorem trail_follows_openings cfg g lastMove now0 inputs :
  wf_grid (size cfg) g → wall_symmetric (size cfg) g → 1 ≤ size cfg →
  ∃ st', play cfg (newGame g lastMove now0) inputs = Ok st'
    ∧ walk (linked g) (mkPos 0 0) (playerPos st') (trail st')
    ∧ Z.of_nat (length (trail st')) = moveCount st' + 1.
Proof.
  intros Hwf Hsym Hsize.
  destruct (play_ind cfg g
    (λ st, (maze st = g ∧ inside (size cfg) (playerPos st))
           ∧ walk (linked g) (mkPos 0 0) (playerPos st) (trail st)
           ∧ Z.of_nat (length (trail st)) = moveCount st + 1)
    Hwf) with (inputs := inputs) (st := newGame g lastMove now0)
    as (st' & Hplay & _ & Hwalk & Hlen).
  - by intros st [? _].
  - intros st d now now' ([Hmaze Hin] & Hwalk & Hlen) (_ & _ & Hin' & Hw).
    destruct (moved_to_fields cfg st (neighbor (playerPos st) d) now now')
      as (-> & -> & -> & -> & _).
    split_and!; [done..| |].
    + eapply walk_snoc; [done|]. exists d. split; [done|].
      unfold open_pair. cbn [fst snd]. rewrite <- Hsym by done.
      rewrite Hmaze in Hw. by rewrite Hw.
    + rewrite length_app. simpl. lia.
  - simpl. split_and!; [done | unfold inside; simpl; lia | constructor | done].
  - by exists st'.
Qed.

Lemma trail_follows_openings_witness :
  ∃ st', play (mkConfig 3 0 Infinity) (newGame sample_maze 0 0)
           [(Bottom, 1000, 1000); (Left, 2000, 2000); (Right, 3000, 3000)] = Ok st'
    ∧ walk (linked sample_maze) (mkPos 0 0) (playerPos st') (trail st')
    ∧ Z.of_nat (length (trail st')) = moveCount st' + 1.
Proof.
  apply (trail_follows_openings (mkConfig 3 0 Infinity) sample_maze 0 0).
  - apply sample_maze_spec.
  - apply sample_maze_symmetric.
  - simpl. lia.
Defined.

(** X3. Once the game is won or lost no input changes anything any more,
    and in a running game any burst of inputs that all come less than
    MOVE_COOLDOWN milliseconds after the last accepted move is dropped
    whole. Neither case reads the maze, so neither can throw. *)
Theorem play_ignored cfg st inputs :
  gameState st ≠ Playing
    ∨ Forall (λ i, i.1.2 - lastMoveTime st < MOVE_COOLDOWN) inputs →
  play cfg st inputs = Ok st.
Proof.
  induction inputs as [|[[d now] now'] rest IH]; intros H; [done|].
  cbn [play]. unfold attemptMove. rewrite movePlayer_early.
  - cbn [mbind result_bind]. apply IH.
    destruct H as [?|[_ ?]%Forall_cons]; auto.
  - destruct H as [?|[? _]%Forall_cons]; auto.
Qed.

Lemma play_ignored_witness :
  play (mkConfig 3 0 Infinity) (newGame sample_maze 1000 0)
    [(Bottom, 1010, 1010); (Bottom, 1100, 1100); (Bottom, 1149, 1149)]
  = Ok (newGame sample_maze 1000 0).
Proof.
  apply (play_ignored (mkConfig 3 0 Infinity) (newGame sample_maze 1000 0)).
  right. repeat constructor; simpl; unfold MOVE_COOLDOWN; lia.
Defined.

(** X6. The move that reaches the goal plays the click and the success
    sound and schedules [onComplete(score, maxScore)], where [maxScore] is
    the time limit (120 when there is none) and [score] is [maxScore] minus
    the elapsed time in seconds rounded up, but not less than 0; when the
    clock has not run backwards the score is at most the non-negative part
    of [maxScore]. *)
Theorem winning_move_score cfg st d now now' :
  accepted cfg st d now → neighbor (playerPos st) d = goal cfg →
  ∃ st' score,
    attemptMove cfg st d now now' = Ok st'
    ∧ gameState st' = Won
    ∧ effects st' = effects st
        ++ [PlayClick; PlaySuccess; OnComplete score (maxScoreOf cfg)]
    ∧ 0 ≤ score
    ∧ (∀ k, 1000 * (k - 1) < now' - startTime st ≤ 1000 * k →
         score = Z.max 0 (maxScoreOf cfg - k))
    ∧ (startTime st ≤ now' → score ≤ Z.max 0 (maxScoreOf cfg)).
Proof.
  intros Hacc Hgoal. rewrite (attemptMove_accepted _ _ _ _ _ Hacc).
  unfold moved_to. rewrite Hgoal, bool_decide_true by done.
  eexists _, _. split_and!; [done..|lia| |].
  - intros k Hk.
    assert ((- (now' - startTime st)) `div` 1000 = - k) as ->; [|lia].
    symmetry. apply (Z.div_unique _ _ _ (1000 * k - (now' - startTime st))); lia.
  - intros Hclock.
    assert ((- (now' - startTime st)) `div` 1000 ≤ 0); [|lia].
    apply Z.div_le_upper_bound; lia.
Qed.

Lemma winning_move_score_witness :
  ∃ st' score,
    attemptMove (mkConfig 3 40 Infinity)
      (mkGame Playing 3 (mkPos 1 2) sample_maze [mkPos 0 0] 1000 0 [])
      Right 5000 5001 = Ok st'
    ∧ gameState st' = Won
    ∧ effects st' = []
        ++ [PlayClick; PlaySuccess; OnComplete score (maxScoreOf (mkConfig 3 40 Infinity))]
    ∧ 0 ≤ score
    ∧ (∀ k, 1000 * (k - 1) < 5001 - 0 ≤ 1000 * k →
         score = Z.max 0 (maxScoreOf (mkConfig 3 40 Infinity) - k))
    ∧ (0 ≤ 5001 → score ≤ Z.max 0 (maxScoreOf (mkConfig 3 40 Infinity))).
Proof.
  apply (winning_move_score (mkConfig 3 40 Infinity)
           (mkGame Playing 3 (mkPos 1 2) sample_maze [mkPos 0 0] 1000 0 [])
           Right 5000 5001).
  - split_and!; [reflexivity | vm_compute; discriminate
                 | unfold inside; simpl; lia | reflexivity].
  - reflexivity.
Defined.

(** ** How many walls generateMaze opens *)

Lemma opened_openings_bound size g g' p d :
  inside size p → inside size (neighbor p d) → opened_by (p, d) g g' →
  (openings size g' ≤ S (openings size g))%nat.
Proof.
  intros Hp Hn Ho. destruct (open_pair g (p, d)) eqn:Hopen.
  - assert (openings size g' = openings size g) as ->; [|lia].
    apply filter_length_ext. intros e _.
    rewrite (open_pair_opened _ _ _ _ Ho). case_decide as Hc; [|done].
    destruct Hc as [-> | ->]; by rewrite ?open_pair_mirror, Hopen.
  - by rewrite (opened_openings_succ size g g' p d).
Qed.

Lemma braid_steps_openings k size g rng g' rng' :
  1 ≤ size → wf_grid size g →
  braid_steps k size (g, rng) = Ok (g', rng') →
  (openings size g' ≤ openings size g + k)%nat.
Proof.
  intros Hsize. revert g rng.
  induction k as [|k IH]; intros g rng Hwf Hrun; cbn [braid_steps] in Hrun.
  - injection Hrun as -> _. lia.
  - destruct (braid_step_spec size g rng Hsize Hwf) as (g1 & rng1 & Hstep & Hwf1 & Hrel).
    rewrite Hstep in Hrun. cbn [mbind result_bind] in Hrun.
    specialize (IH g1 rng1 Hwf1 Hrun).
    destruct Hrel as [->|(p & d & Hp & Hn & Ho)]; [lia|].
    pose proof (opened_openings_bound size g g1 p d Hp Hn Ho). lia.
Qed.

(** X8. In easy and insane mode the maze generateMaze returns is the carved
    tree, with exactly [size * size - 1] open wall pairs; in hard mode
    braiding adds at most [size * size / 20] (rounded down) openings to
    those. *)
Theorem generateMaze_openings difficulty size rng :
  1 ≤ size →
  ∃ g, (∀ fuel, 2 * size * size ≤ Z.of_nat fuel →
          generateMaze fuel difficulty size rng = Ok g)
    ∧ size * size - 1 ≤ Z.of_nat (openings size g)
    ∧ Z.of_nat (openings size g)
        ≤ size * size - 1
          + match difficulty with Hard => size * size / 20 | _ => 0 end.
Proof.
  intros Hsize. destruct (carve_total size rng Hsize) as (st & Hinv & Hend & Hrun).
  pose proof (carve_inv_all_count size st Hsize Hinv Hend) as Hcount.
  pose proof (ci_open _ _ Hinv) as Hopen.
  destruct (braid_steps_spec (extraPaths size) size (cs_grid st) (cs_rng st) Hsize
              (ci_wf _ _ Hinv)) as (g' & rng' & Hbraid & _ & Hmono & _).
  pose proof (braid_steps_openings _ _ _ _ _ _ Hsize (ci_wf _ _ Hinv) Hbraid) as Hup.
  pose proof (only_opened_openings size _ _ Hmono) as Hlow.
  assert (Z.of_nat (extraPaths size) = size * size / 20) as Hextra.
  { unfold extraPaths. rewrite Z2Nat.id; [done|]. apply Z.div_pos; nia. }
  destruct difficulty.
  - exists (cs_grid st). split; [|lia].
    intros fuel Hfuel. unfold generateMaze. by rewrite (Hrun fuel Hfuel).
  - exists g'. split; [|lia].
    intros fuel Hfuel. unfold generateMaze. rewrite (Hrun fuel Hfuel).
    cbn [mbind result_bind]. by rewrite Hbraid.
  - exists (cs_grid st). split; [|lia].
    intros fuel Hfuel. unfold generateMaze. by rewrite (Hrun fuel Hfuel).
Qed.

Lemma generateMaze_openings_witness :
  ∃ g, (∀ fuel, 2 * 17 * 17 ≤ Z.of_nat fuel →
          generateMaze fuel Hard 17 sample_rng = Ok g)
    ∧ 17 * 17 - 1 ≤ Z.of_nat (openings 17 g)
    ∧ Z.of_nat (openings 17 g) ≤ 17 * 17 - 1 + 17 * 17 / 20.
Proof. apply (generateMaze_openings Hard 17 sample_rng). lia. Defined.

(** ** Touch, keyboard and the game loop *)


Lemma keysAfter_movement keys0 events :
  (∀ k, k ∈ keys0 → k ∈ movementKeys) →
  ∀ k, k ∈ keysAfter keys0 events → k ∈ movementKeys.
Proof.
  revert keys0. induction events as [|e events IH]; intros keys0 H0; [done|].
  apply IH. intros k. destruct e as [key|key]; simpl.
  - case_bool_decide as Hkey; [|by apply H0].
    intros [->%elem_of_singleton|?]%elem_of_union; [done | by apply H0].
  - unfold handleKeyUp. intros [? _]%elem_of_difference. by apply H0.
Qed.

Lemma loopInput_None keys :
  loopInput keys = None ↔ ∀ k, k ∈ movementKeys → k ∉ keys.
Proof.
  unfold loopInput, movementKeys. cbv zeta.
  repeat match goal with
         | |- context [bool_decide (?k ∈ keys)] =>
             destruct (bool_decide_reflect (k ∈ keys)); cbn [orb]
         end.
  all: split; [try discriminate | try done].
  all: try (intros H; exfalso; eapply H; [|eassumption]; rewrite !elem_of_cons; tauto).
  intros _ k Hk. rewrite !elem_of_cons in Hk.
  destruct Hk as [->|[->|[->|[->|[->|[->|[->|[->|?%elem_of_nil]]]]]]]]; done.
Qed.

(** X10. Whatever keys are pressed and released, [keysPressed] only ever
    holds (lower-cased) movement keys, so the loop makes no movePlayer call
    exactly when the set is empty; and releasing a key clears it whatever
    the case it is reported in. *)
Theorem keys_only_movement events :
  (∀ k, k ∈ keysAfter ∅ events → k ∈ movementKeys)
  ∧ (loopInput (keysAfter ∅ events) = None ↔ keysAfter ∅ events = ∅)
  ∧ ∀ key, toLowerCase key ∉ keysAfter ∅ (events ++ [KeyUpEvent key]).
Proof.
  assert (Hsub : ∀ k, k ∈ keysAfter ∅ events → k ∈ movementKeys).
  { apply keysAfter_movement. by intros k ?%not_elem_of_empty. }
  split_and!; [done| |].
  - rewrite loopInput_None. split.
    + intros Hnone. apply set_eq. intros k.
      split; [|by intros ?%not_elem_of_empty]. intros Hk.
      by destruct (Hnone k (Hsub k Hk)).
    + intros -> k _. apply not_elem_of_empty.
  - intros key. unfold keysAfter. rewrite foldl_app. simpl. unfold handleKeyUp.
    rewrite elem_of_difference, elem_of_singleton. tauto.
Qed.



(** X12. When the move of a frame reaches the goal in the very frame in
    which a positive time limit is found to have run out, the loop
    overwrites Won: the game ends Lost, with the failure sound, although the
    move has scheduled [onComplete]. *)
Theorem loop_win_and_timeout cfg keysPressed st d now now' clock :
  loopInput keysPressed = Some d →
  accepted cfg st d now → neighbor (playerPos st) d = goal cfg →
  0 < timeLimit cfg → 1000 * timeLimit cfg ≤ clock - startTime st →
  ∃ fr, loop cfg keysPressed st now now' clock = Ok fr
    ∧ gameState (fr_game fr) = Lost
    ∧ playerPos (fr_game fr) = goal cfg
    ∧ fr_playFailure fr = true
    ∧ completions (effects (fr_game fr)) = S (completions (effects st)).
Proof.
  intros Hkey Hacc Hgoal Hlimit Htime. unfold loop.
  rewrite Hkey, (attemptMove_accepted _ _ _ _ _ Hacc). cbn [mbind result_bind].
  destruct (moved_to_fields cfg st (neighbor (playerPos st) d) now now')
    as (_ & Hpos & _ & _ & _ & Hstart & _).
  rewrite Hstart.
  assert ((0 <? timeLimit cfg) && (1000 * timeLimit cfg <=? clock - startTime st) = true)
    as -> by (apply andb_true_iff; lia).
  eexists. split; [done|].
  cbn [fr_game fr_playFailure setGameState gameState playerPos effects].
  split_and!; [done | by rewrite Hpos | done |].
  unfold moved_to. rewrite Hgoal, bool_decide_true by done.
  cbn [effects]. rewrite completions_app. unfold completions at 2. simpl. lia.
Qed.

Lemma loop_win_and_timeout_witness :
  ∃ fr, loop (mkConfig 3 40 Infinity) {[ "arrowright"%string ]}
          (mkGame Playing 3 (mkPos 1 2) sample_maze [mkPos 0 0] 1000 0 [])
          40000 40000 40001 = Ok fr
    ∧ gameState (fr_game fr) = Lost
    ∧ playerPos (fr_game fr) = goal (mkConfig 3 40 Infinity)
    ∧ fr_playFailure fr = true
    ∧ completions (effects (fr_game fr)) = S (completions []).
Proof.
  apply (loop_win_and_timeout (mkConfig 3 40 Infinity) _
           (mkGame Playing 3 (mkPos 1 2) sample_maze [mkPos 0 0] 1000 0 []) Right).
  - reflexivity.
  - split_and!; [reflexivity | vm_compute; discriminate
                 | unfold inside; simpl; lia | reflexivity].
  - reflexivity.
  - simpl. lia.
  - simpl. lia.
Defined.

(** ** Stars and stored progress *)

Lemma level_le_refl l : level_le l l.
Proof. unfold level_le. split_and!; [done | done | lia | lia]. Qed.

Lemma level_le_trans l1 l2 l3 : level_le l1 l2 → level_le l2 l3 → level_le l1 l3.
Proof. unfold level_le. intros (? & ? & ? & ?) (? & ? & ? & ?). split_and!; [auto | auto | lia | lia]. Qed.

Lemma levels_le_refl ls : Forall2 level_le ls ls.
Proof. induction ls; constructor; [apply level_le_refl | done]. Qed.

Lemma level_at_Some ls i l :
  level_at ls i = Some l ↔ 0 ≤ i ∧ ls !! Z.to_nat i = Some l.
Proof. unfold level_at. case_bool_decide; [tauto|]. split; [done | tauto]. Qed.

Lemma level_at_None ls i :
  level_at ls i = None ↔ i < 0 ∨ Z.of_nat (length ls) ≤ i.
Proof.
  unfold level_at. case_bool_decide as Hi.
  - rewrite lookup_ge_None. lia.
  - split; [lia | done].
Qed.

Lemma played_levels_length ls i stars score :
  length (played_levels ls i stars score) = length ls.
Proof. unfold played_levels. case_match; by rewrite ?length_alter. Qed.

Lemma played_levels_lookup ls i stars score j :
  0 ≤ i →
  played_levels ls i stars score !! j =
    (λ l, if bool_decide (j = Z.to_nat i) then record_result stars score l
          else if bool_decide (j = Z.to_nat (i + 1)) then set_unlocked l
          else l) <$> ls !! j.
Proof.
  intros Hi. unfold played_levels. rewrite length_alter.
  destruct (i + 1 <? Z.of_nat (length ls)) eqn:Hnext.
  - rewrite !list_lookup_alter.
    case_decide as H1; case_decide as H2; subst.
    + lia.
    + rewrite (bool_decide_false (Z.to_nat (i + 1) = Z.to_nat i)) by lia.
      rewrite (bool_decide_true (Z.to_nat (i + 1) = Z.to_nat (i + 1))) by done.
      done.
    + rewrite (bool_decide_true (Z.to_nat i = Z.to_nat i)) by done. done.
    + rewrite (bool_decide_false (j = Z.to_nat i)) by done.
      rewrite (bool_decide_false (j = Z.to_nat (i + 1))) by done.
      by destruct (ls !! j).
  - rewrite list_lookup_alter.
    case_decide as H1; subst.
    + rewrite (bool_decide_true (Z.to_nat i = Z.to_nat i)) by done. done.
    + rewrite (bool_decide_false (j = Z.to_nat i)) by done.
      case_bool_decide as H2; [|by destruct (ls !! j)].
      subst. rewrite (proj2 (lookup_ge_None ls (Z.to_nat (i + 1)))); [done | lia].
Qed.

Lemma played_levels_le ls i stars score :
  0 ≤ i → Forall2 level_le ls (played_levels ls i stars score).
Proof.
  intros Hi. apply Forall2_same_length_lookup_2.
  - by rewrite played_levels_length.
  - intros j x y Hx. rewrite played_levels_lookup, Hx by done.
    intros [= <-]. unfold level_le, record_result, set_unlocked.
    repeat case_bool_decide; simpl; split_and!; try done; lia.
Qed.

Lemma played_levels_completed ls i stars score level :
  level_at ls i = Some level →
  forallb lp_completed (played_levels ls i stars score) = true ↔ others_completed ls i.
Proof.
  intros [Hi Hlevel]%level_at_Some.
  rewrite <- Is_true_true, forallb_True, Forall_lookup. unfold others_completed.
  split.
  - intros H j l Hl Hj. specialize (H j).
    rewrite played_levels_lookup, Hl in H by done. simpl in H.
    rewrite (bool_decide_false (j = Z.to_nat i)) in H by done.
    specialize (H _ eq_refl). apply Is_true_true in H.
    by case_bool_decide.
  - intros H j l. rewrite played_levels_lookup by done.
    destruct (ls !! j) as [l0|] eqn:Hl0; [|done]. intros [= <-].
    apply Is_true_true. case_bool_decide as Hj; [done|].
    specialize (H j l0 Hl0 Hj). by case_bool_decide.
Qed.

Lemma completeLevel_result p d i stars score now level :
  level_at (levelsOf (levels p) d) i = Some level →
  let played := played_levels (levelsOf (levels p) d) i stars score in
  let finish ud lv :=
    mkGameProgress ud lv (Z.max (gp_bestScore p) score) (totalPlayTime p) now
      (gamesPlayed p + 1) in
  completeLevel p d i stars score now =
    if forallb lp_completed played then
      match d with
      | Easy =>
          match hard (levels p) with
          | [] => TypeError
          | first :: rest =>
              Ok (finish Hard (mkLevels played (set_unlocked first :: rest)
                                 (insane (levels p))))
          end
      | Hard =>
          match insane (levels p) with
          | [] => TypeError
          | first :: rest =>
              Ok (finish Insane (mkLevels (easy (levels p)) played
                                   (set_unlocked first :: rest)))
          end
      | Insane => Ok (finish (unlockedDifficulty p) (setLevelsOf (levels p) Insane played))
      end
    else Ok (finish (unlockedDifficulty p) (setLevelsOf (levels p) d played)).
Proof.
  intros Hlevel. unfold completeLevel. rewrite Hlevel.
  destruct d; simpl; destruct (forallb _ _); simpl; try done.
  - by destruct (hard (levels p)).
  - by destruct (insane (levels p)).
Qed.

Lemma unlock_first_le first rest :
  Forall2 level_le (first :: rest) (set_unlocked first :: rest).
Proof.
  constructor; [|apply levels_le_refl].
  unfold level_le, set_unlocked. simpl. split_and!; [done | done | lia | lia].
Qed.

Lemma foldl_stars_le ls ls' a b :
  Forall2 level_le ls ls' → a ≤ b →
  foldl (λ total level, total + lp_stars level) a ls
  ≤ foldl (λ total level, total + lp_stars level) b ls'.
Proof.
  intros H. revert a b.
  induction H as [|x y l k (_ & _ & Hxy & _) _ IH]; intros a b Hab; simpl; [done|].
  apply IH. lia.
Qed.

(** What [completeLevel] leaves of the levels of every difficulty. *)
Lemma completeLevel_levels p d i stars score now p' :
  completeLevel p d i stars score now = Ok p' →
  0 ≤ i
  ∧ levelsOf (levels p') d = played_levels (levelsOf (levels p) d) i stars score
  ∧ ∀ d', d' ≠ d →
      levelsOf (levels p') d' = levelsOf (levels p) d'
      ∨ ∃ first rest, levelsOf (levels p) d' = first :: rest
          ∧ levelsOf (levels p') d' = set_unlocked first :: rest.
Proof.
  intros H.
  destruct (level_at (levelsOf (levels p) d) i) as [level|] eqn:Hlevel;
    [|by unfold completeLevel in H; rewrite Hlevel in H].
  rewrite (completeLevel_result _ _ _ _ _ _ _ Hlevel) in H.
  apply level_at_Some in Hlevel as [Hi _]. split; [done|].
  destruct (forallb _ _), d; simpl in *;
    try destruct (hard (levels p)) as [|first rest] eqn:Hhard;
    try destruct (insane (levels p)) as [|first' rest'] eqn:Hinsane;
    try discriminate; injection H as <-; simpl;
    (split; [done|]); intros []; simpl; intros ?; try done; eauto.
Qed.

Lemma levels_le_trans ls1 ls2 ls3 :
  Forall2 level_le ls1 ls2 → Forall2 level_le ls2 ls3 → Forall2 level_le ls1 ls3.
Proof. apply Forall2_trans. intros ???. apply level_le_trans. Qed.

Lemma played_levels_at_played ls i stars score level :
  level_at ls i = Some level →
  level_at (played_levels ls i stars score) i = Some (record_result stars score level).
Proof.
  intros [Hi Hl]%level_at_Some. apply level_at_Some. split; [done|].
  rewrite played_levels_lookup, Hl by done. simpl.
  by rewrite (bool_decide_true (Z.to_nat i = Z.to_nat i)).
Qed.

Lemma played_levels_at_next ls i stars score next :
  0 ≤ i → level_at ls (i + 1) = Some next →
  level_at (played_levels ls i stars score) (i + 1) = Some (set_unlocked next).
Proof.
  intros Hi [_ Hl]%level_at_Some. apply level_at_Some. split; [lia|].
  rewrite played_levels_lookup, Hl by done. simpl.
  rewrite (bool_decide_false (Z.to_nat (i + 1) = Z.to_nat i)) by lia.
  by rewrite (bool_decide_true (Z.to_nat (i + 1) = Z.to_nat (i + 1))).
Qed.

(** When the next difficulties have levels, [completeLevel] returns. *)
Lemma completeLevel_Ok p d i stars score now level :
  level_at (levelsOf (levels p) d) i = Some level →
  hard (levels p) ≠ [] → insane (levels p) ≠ [] →
  ∃ p', completeLevel p d i stars score now = Ok p'
    ∧ (others_completed (levelsOf (levels p) d) i → d = Easy →
         unlockedDifficulty p' = Hard
         ∧ ∃ first rest, hard (levels p) = first :: rest
             ∧ hard (levels p') = set_unlocked first :: rest)
    ∧ (others_completed (levelsOf (levels p) d) i → d = Hard →
         unlockedDifficulty p' = Insane
         ∧ ∃ first rest, insane (levels p) = first :: rest
             ∧ insane (levels p') = set_unlocked first :: rest)
    ∧ (¬ others_completed (levelsOf (levels p) d) i ∨ d = Insane →
         unlockedDifficulty p' = unlockedDifficulty p).
Proof.
  intros Hlevel Hhard Hinsane.
  rewrite (completeLevel_result _ _ _ _ _ _ _ Hlevel).
  pose proof (played_levels_completed _ _ stars score _ Hlevel) as Hall.
  destruct (hard (levels p)) as [|h hs] eqn:Hh; [done|].
  destruct (insane (levels p)) as [|n ns] eqn:Hn; [done|].
  destruct (forallb _ _).
  - assert (others_completed (levelsOf (levels p) d) i) as Hoth by by apply Hall.
    destruct d; simpl; eexists; (split; [done|]); simpl;
      split_and!; try done; try (intros _ _; split; [done|]; by eexists _, _);
      intros [|]; done.
  - assert (¬ others_completed (levelsOf (levels p) d) i) as Hoth.
    { intros H. by apply Hall in H. }
    eexists; split; [done|]. simpl. split_and!; try done.
Qed.

Lemma completeLevel_fields p d i stars score now p' :
  completeLevel p d i stars score now = Ok p' →
  gp_bestScore p' = Z.max (gp_bestScore p) score
  ∧ totalPlayTime p' = totalPlayTime p
  ∧ lastPlayed p' = now
  ∧ gamesPlayed p' = gamesPlayed p + 1.
Proof.
  intros H.
  destruct (level_at (levelsOf (levels p) d) i) as [level|] eqn:Hlevel;
    [|by unfold completeLevel in H; rewrite Hlevel in H].
  rewrite (completeLevel_result _ _ _ _ _ _ _ Hlevel) in H.
  destruct (forallb _ _), d; simpl in *;
    try destruct (hard (levels p)) as [|first rest] eqn:Hhard;
    try destruct (insane (levels p)) as [|first' rest'] eqn:Hinsane;
    try discriminate; by injection H as <-.
Qed.

Lemma completeLevel_le p d i stars score now p' :
  completeLevel p d i stars score now = Ok p' →
  ∀ d', Forall2 level_le (levelsOf (levels p) d') (levelsOf (levels p') d').
Proof.
  intros H d'. destruct (completeLevel_levels _ _ _ _ _ _ _ H) as (Hi & Hd & Hother).
  destruct (decide (d' = d)) as [->|Hne].
  - rewrite Hd. by apply played_levels_le.
  - destruct (Hother d' Hne) as [->|(first & rest & -> & ->)].
    + apply levels_le_refl.
    + apply unlock_first_le.
Qed.

(** X13. The stars of a maze win depend on the time only: with [k] the
    elapsed time in seconds rounded up and [maxScore] the time limit (120
    when there is none), the shell shows three stars when
    [10 * k <= maxScore], two when [10 * k <= 4 * maxScore] and one
    otherwise, also when the score is 0. *)
Theorem winning_move_stars cfg st d now now' k :
  accepted cfg st d now → neighbor (playerPos st) d = goal cfg →
  0 ≤ timeLimit cfg →
  1000 * (k - 1) < now' - startTime st ≤ 1000 * k →
  ∃ st' score,
    attemptMove cfg st d now now' = Ok st'
    ∧ effects st' = effects st
        ++ [PlayClick; PlaySuccess; OnComplete score (maxScoreOf cfg)]
    ∧ ∀ sh stored clock,
        completionStars (handleComplete sh stored score (maxScoreOf cfg) clock).1
        = (if 10 * k <=? maxScoreOf cfg then 3
           else if 10 * k <=? 4 * maxScoreOf cfg then 2
           else 1).
Proof.
  intros Hacc Hgoal Hlimit Hk. rewrite (attemptMove_accepted _ _ _ _ _ Hacc).
  unfold moved_to. rewrite Hgoal, bool_decide_true by done.
  eexists _, _. split_and!; [done..|]. intros sh stored clock.
  assert ((- (now' - startTime st)) `div` 1000 = - k) as ->.
  { symmetry. apply (Z.div_unique _ _ _ (1000 * k - (now' - startTime st))); lia. }
  assert (0 < maxScoreOf cfg) as Hmax.
  { unfold maxScoreOf. destruct (Z.eqb_spec (timeLimit cfg) 0); lia. }
  assert (completionStars
            (handleComplete sh stored (Z.max 0 (maxScoreOf cfg + - k)) (maxScoreOf cfg) clock).1
          = starsOf (Z.max 0 (maxScoreOf cfg + - k)) (maxScoreOf cfg)) as ->.
  { unfold handleComplete. by destruct (completeLevel _ _ _ _ _ _). }
  unfold starsOf.
  repeat match goal with
         | |- context [?a <? ?b] => destruct (Z.ltb_spec a b)
         | |- context [?a <=? ?b] => destruct (Z.leb_spec a b)
         end; lia.
Qed.

Lemma winning_move_stars_witness :
  ∃ st' score,
    attemptMove (mkConfig 3 40 Infinity)
      (mkGame Playing 3 (mkPos 1 2) sample_maze [mkPos 0 0] 1000 0 [])
      Right 5000 5001 = Ok st'
    ∧ effects st' = []
        ++ [PlayClick; PlaySuccess; OnComplete score (maxScoreOf (mkConfig 3 40 Infinity))]
    ∧ ∀ sh stored clock,
        completionStars
          (handleComplete sh stored score (maxScoreOf (mkConfig 3 40 Infinity)) clock).1
        = (if 10 * 6 <=? maxScoreOf (mkConfig 3 40 Infinity) then 3
           else if 10 * 6 <=? 4 * maxScoreOf (mkConfig 3 40 Infinity) then 2
           else 1).
Proof.
  apply (winning_move_stars (mkConfig 3 40 Infinity)
           (mkGame Playing 3 (mkPos 1 2) sample_maze [mkPos 0 0] 1000 0 [])
           Right 5000 5001 6).
  - split_and!; [reflexivity | vm_compute; discriminate
                 | unfold inside; simpl; lia | reflexivity].
  - reflexivity.
  - simpl. lia.
  - simpl. lia.
Defined.

(** X14. [completeLevel] throws exactly when the level index is outside
    the list of the difficulty, or when the level completes an easy (hard)
    difficulty and the list of hard (insane) levels is empty; in every
    other case it returns the updated progress. *)
Theorem completeLevel_throws p d i stars score now :
  (completeLevel p d i stars score now = TypeError ↔
     level_at (levelsOf (levels p) d) i = None
     ∨ (others_completed (levelsOf (levels p) d) i
        ∧ ((d = Easy ∧ hard (levels p) = []) ∨ (d = Hard ∧ insane (levels p) = []))))
  ∧ completeLevel p d i stars score now ≠ OutOfFuel.
Proof.
  destruct (level_at (levelsOf (levels p) d) i) as [level|] eqn:Hlevel.
  - rewrite (completeLevel_result _ _ _ _ _ _ _ Hlevel).
    pose proof (played_levels_completed _ _ stars score _ Hlevel) as Hall.
    destruct (forallb _ _).
    + assert (others_completed (levelsOf (levels p) d) i) as Hoth by by apply Hall.
      destruct d; simpl in *.
      * destruct (hard (levels p)) as [|h hs]; (split; [|done]); split; try done.
        -- intros _. right. auto.
        -- intros [|(_ & [[_ ?]|[? _]])]; done.
      * destruct (insane (levels p)) as [|n ns]; (split; [|done]); split; try done.
        -- intros _. right. auto.
        -- intros [|(_ & [[? _]|[_ ?]])]; done.
      * split; [|done]. split; [done|].
        intros [|(_ & [[? _]|[? _]])]; done.
    + split; [|done]. split; [done|].
      intros [|[H _]]; [done|]. by apply Hall in H.
  - unfold completeLevel. rewrite Hlevel. split; [|done]. split; [tauto | done].
Qed.

(** X15. [completeLevel] never takes anything back from the levels: in
    every difficulty the lists keep their lengths, a completed level stays
    completed, an unlocked level stays unlocked, and stars and best scores
    do not decrease; the best score of the game becomes the maximum of the
    old one and the new score, the play counter goes up by one, and the
    star total of the game does not decrease. *)
Theorem completeLevel_keeps_progress p d i stars score now p' :
  completeLevel p d i stars score now = Ok p' →
  (∀ d', Forall2 level_le (levelsOf (levels p) d') (levelsOf (levels p') d'))
  ∧ gp_bestScore p' = Z.max (gp_bestScore p) score
  ∧ gamesPlayed p' = gamesPlayed p + 1
  ∧ lastPlayed p' = now
  ∧ totalPlayTime p' = totalPlayTime p
  ∧ getTotalStarsForGame p ≤ getTotalStarsForGame p'.
Proof.
  intros H. pose proof (completeLevel_le _ _ _ _ _ _ _ H) as Hle.
  destruct (completeLevel_fields _ _ _ _ _ _ _ H) as (? & ? & ? & ?).
  split_and!; try done.
  unfold getTotalStarsForGame. simpl.
  apply foldl_stars_le; [apply (Hle Insane)|].
  apply foldl_stars_le; [apply (Hle Hard)|].
  apply foldl_stars_le; [apply (Hle Easy)|]. done.
Qed.

Lemma completeLevel_keeps_progress_witness :
  (∀ d', Forall2 level_le (levelsOf (levels createDefaultGameProgress) d')
           (levelsOf (levels first_win) d'))
  ∧ gp_bestScore first_win = Z.max (gp_bestScore createDefaultGameProgress) 100
  ∧ gamesPlayed first_win = gamesPlayed createDefaultGameProgress + 1
  ∧ lastPlayed first_win = 1
  ∧ totalPlayTime first_win = totalPlayTime createDefaultGameProgress
  ∧ getTotalStarsForGame createDefaultGameProgress ≤ getTotalStarsForGame first_win.
Proof.
  apply (completeLevel_keeps_progress createDefaultGameProgress Easy 0 3 100 1).
  reflexivity.
Defined.

(** X16. When the hard and insane lists have levels, completing level [i]
    of a difficulty returns a progress in which that level is completed
    with the larger of the old and new stars and scores, and the level
    after it, if there is one, is unlocked. If every other level of the
    difficulty was completed already, the tab of the next difficulty opens
    and its first level is unlocked; otherwise, and for insane, the
    unlocked difficulty stays as it was. *)
Theorem completeLevel_unlocks p d i stars score now level :
  level_at (levelsOf (levels p) d) i = Some level →
  hard (levels p) ≠ [] → insane (levels p) ≠ [] →
  ∃ p' level',
    completeLevel p d i stars score now = Ok p'
    ∧ level_at (levelsOf (levels p') d) i = Some level'
    ∧ lp_completed level' = true
    ∧ lp_stars level' = Z.max (lp_stars level) stars
    ∧ lp_bestScore level' = Z.max (lp_bestScore level) score
    ∧ (∀ next, level_at (levelsOf (levels p) d) (i + 1) = Some next →
         ∃ next', level_at (levelsOf (levels p') d) (i + 1) = Some next'
                  ∧ lp_unlocked next' = true)
    ∧ (others_completed (levelsOf (levels p) d) i →
         match d with
         | Easy =>
             isUnlocked p' Hard = true
             ∧ ∃ first, level_at (hard (levels p')) 0 = Some first
                        ∧ lp_unlocked first = true
         | Hard =>
             isUnlocked p' Insane = true
             ∧ ∃ first, level_at (insane (levels p')) 0 = Some first
                        ∧ lp_unlocked first = true
         | Insane => unlockedDifficulty p' = unlockedDifficulty p
         end)
    ∧ (¬ others_completed (levelsOf (levels p) d) i →
         unlockedDifficulty p' = unlockedDifficulty p).
Proof.
  intros Hlevel Hhard Hinsane.
  destruct (completeLevel_Ok p d i stars score now level Hlevel Hhard Hinsane)
    as (p' & Hp' & Heasy & Hhard' & Hsame).
  destruct (completeLevel_levels _ _ _ _ _ _ _ Hp') as (Hi & Hd & _).
  exists p', (record_result stars score level).
  split_and!; try done.
  - rewrite Hd. by apply played_levels_at_played.
  - intros next Hnext. exists (set_unlocked next).
    rewrite Hd. split; [by apply played_levels_at_next | done].
  - intros Hoth. destruct d.
    + destruct (Heasy Hoth eq_refl) as (Hu & first & rest & _ & Hfirst).
      unfold isUnlocked. rewrite Hu, Hfirst. split; [done|]. by eexists.
    + destruct (Hhard' Hoth eq_refl) as (Hu & first & rest & _ & Hfirst).
      unfold isUnlocked. rewrite Hu, Hfirst. split; [done|]. by eexists.
    + apply Hsame. by right.
  - intros Hoth. apply Hsame. by left.
Qed.

Lemma completeLevel_unlocks_witness :
  ∃ p' level',
    completeLevel createDefaultGameProgress Easy 0 3 100 1 = Ok p'
    ∧ level_at (levelsOf (levels p') Easy) 0 = Some level'
    ∧ lp_completed level' = true
    ∧ lp_stars level' = Z.max (lp_stars (mkLevelProgress false 0 0 true)) 3
    ∧ lp_bestScore level' = Z.max (lp_bestScore (mkLevelProgress false 0 0 true)) 100
    ∧ (∀ next, level_at (levelsOf (levels createDefaultGameProgress) Easy) (0 + 1)
               = Some next →
         ∃ next', level_at (levelsOf (levels p') Easy) (0 + 1) = Some next'
                  ∧ lp_unlocked next' = true)
    ∧ (others_completed (levelsOf (levels createDefaultGameProgress) Easy) 0 →
         isUnlocked p' Hard = true
         ∧ ∃ first, level_at (hard (levels p')) 0 = Some first
                    ∧ lp_unlocked first = true)
    ∧ (¬ others_completed (levelsOf (levels createDefaultGameProgress) Easy) 0 →
         unlockedDifficulty p' = unlockedDifficulty createDefaultGameProgress).
Proof.
  apply (completeLevel_unlocks createDefaultGameProgress Easy 0 3 100 1
           (mkLevelProgress false 0 0 true)).
  - reflexivity.
  - discriminate.
  - discriminate.
Defined.

(** X17. Completing an easy level when every other easy level is completed
    sets the unlocked difficulty to hard whatever it was: for a player who
    had reached insane, the insane tab of the level select screen is locked
    again and a click on an insane level does nothing, although the insane
    levels themselves keep their state. *)
Theorem replay_easy_locks_insane p i stars score now p' :
  unlockedDifficulty p = Insane →
  others_completed (easy (levels p)) i →
  completeLevel p Easy i stars score now = Ok p' →
  isUnlocked p Insane = true
  ∧ isUnlocked p' Insane = false
  ∧ insane (levels p') = insane (levels p)
  ∧ ∀ sh j, progress sh = Some p' → clickLevel sh Insane j = sh.
Proof.
  intros Hu Hoth H.
  destruct (level_at (easy (levels p)) i) as [level|] eqn:Hlevel;
    [|by unfold completeLevel in H; simpl in H; rewrite Hlevel in H].
  rewrite (completeLevel_result p Easy _ _ _ _ _ Hlevel) in H. simpl in H.
  rewrite (proj2 (played_levels_completed _ _ stars score _ Hlevel) Hoth) in H.
  destruct (hard (levels p)) as [|first rest]; [done|]. injection H as <-.
  unfold isUnlocked. rewrite Hu. simpl. split_and!; try done.
  intros sh j Hsh. unfold clickLevel. rewrite Hsh. simpl.
  by rewrite andb_false_r.
Qed.

Lemma replay_easy_locks_insane_witness :
  isUnlocked veteran_progress Insane = true
  ∧ isUnlocked replayed_progress Insane = false
  ∧ insane (levels replayed_progress) = insane (levels veteran_progress)
  ∧ ∀ sh j, progress sh = Some replayed_progress → clickLevel sh Insane j = sh.
Proof.
  apply (replay_easy_locks_insane veteran_progress 2 1 10 3).
  - reflexivity.
  - apply (played_levels_completed _ _ 1 10 (mkLevelProgress true 3 100 true));
      reflexivity.
  - reflexivity.
Defined.



(** ** Playing the levels of a difficulty in order *)

Lemma completeInOrder_from results : ∀ p d from,
  0 ≤ from →
  hard (levels p) ≠ [] → insane (levels p) ≠ [] →
  from + Z.of_nat (length results) ≤ Z.of_nat (length (levelsOf (levels p) d)) →
  (∀ j l, levelsOf (levels p) d !! j = Some l → Z.of_nat j < from →
          lp_completed l = true) →
  ∃ p', completeInOrder p d from results = Ok p'
    ∧ (∀ d', Forall2 level_le (levelsOf (levels p) d') (levelsOf (levels p') d'))
    ∧ (∀ j l, levelsOf (levels p') d !! j = Some l →
              Z.of_nat j < from + Z.of_nat (length results) → lp_completed l = true)
    ∧ (results ≠ [] →
       ∀ l, level_at (levelsOf (levels p') d) (from + Z.of_nat (length results)) = Some l →
            lp_unlocked l = true)
    ∧ (results ≠ [] →
       from + Z.of_nat (length results) = Z.of_nat (length (levelsOf (levels p) d)) →
       match d with
       | Easy =>
           isUnlocked p' Hard = true
           ∧ ∃ first, level_at (hard (levels p')) 0 = Some first
                      ∧ lp_unlocked first = true
       | Hard =>
           isUnlocked p' Insane = true
           ∧ ∃ first, level_at (insane (levels p')) 0 = Some first
                      ∧ lp_unlocked first = true
       | Insane => True
       end).
Proof.
  induction results as [|[[stars score] now] rest IH];
    intros p d from Hfrom Hhard Hinsane Hlen Hdone.
  - exists p. simpl in *. split_and!; try done.
    + intros d'. apply levels_le_refl.
    + intros j l Hl Hj. apply (Hdone j l Hl). lia.
  - simpl in Hlen. simpl completeInOrder.
    destruct (lookup_lt_is_Some_2 (levelsOf (levels p) d) (Z.to_nat from))
      as [level Hlevel]; [lia|].
    assert (level_at (levelsOf (levels p) d) from = Some level) as Hat
      by by apply level_at_Some.
    destruct (completeLevel_Ok p d from stars score now level Hat Hhard Hinsane)
      as (p1 & Hp1 & Heasy & Hhard' & _).
    rewrite Hp1. simpl.
    pose proof (completeLevel_le _ _ _ _ _ _ _ Hp1) as Hle1.
    destruct (completeLevel_levels _ _ _ _ _ _ _ Hp1) as (_ & Hd1 & _).
    assert (∀ d', length (levelsOf (levels p1) d') = length (levelsOf (levels p) d'))
      as Hlen1.
    { intros d'. symmetry. apply (Forall2_length _ _ _ (Hle1 d')). }
    assert (∀ j l, levelsOf (levels p1) d !! j = Some l → Z.of_nat j < from + 1 →
                   lp_completed l = true) as Hdone1.
    { intros j l. rewrite Hd1, played_levels_lookup by done.
      destruct (levelsOf (levels p) d !! j) as [l0|] eqn:Hl0; [|done].
      intros [= <-] Hj. case_bool_decide; [done|].
      assert (lp_completed l0 = true) by (apply (Hdone j l0 Hl0); lia).
      by case_bool_decide. }
    destruct (IH p1 d (from + 1)) as (p' & Hp' & Hle & Hdone' & Hnext & Hlast).
    { lia. }
    { specialize (Hlen1 Hard). simpl in Hlen1. intros Hnil. rewrite Hnil in Hlen1.
      by destruct (hard (levels p)). }
    { specialize (Hlen1 Insane). simpl in Hlen1. intros Hnil. rewrite Hnil in Hlen1.
      by destruct (insane (levels p)). }
    { rewrite Hlen1. lia. }
    { done. }
    exists p'. split; [done|].
    change (length ((stars, score, now) :: rest)) with (S (length rest)).
    replace (from + Z.of_nat (S (length rest)))
      with (from + 1 + Z.of_nat (length rest)) by lia.
    split_and!.
    + intros d'. by eapply levels_le_trans.
    + done.
    + intros _. destruct rest as [|r rest]; [|by apply Hnext].
      simpl in Hp'. injection Hp' as <-. simpl. rewrite Z.add_0_r.
      intros l. rewrite Hd1. unfold level_at. case_bool_decide; [|done].
      rewrite played_levels_lookup by done.
      destruct (levelsOf (levels p) d !! Z.to_nat (from + 1)); [|done].
      intros [= <-]. simpl.
      rewrite (bool_decide_false (Z.to_nat (from + 1) = Z.to_nat from)) by lia.
      by rewrite (bool_decide_true (Z.to_nat (from + 1) = Z.to_nat (from + 1))).
    + intros _ Hall. destruct rest as [|r rest].
      * simpl in Hp'. injection Hp' as <-. simpl in Hall.
        assert (others_completed (levelsOf (levels p) d) from) as Hoth.
        { intros j l Hl Hj. apply (Hdone j l Hl).
          apply lookup_lt_Some in Hl. lia. }
        destruct d; [| |done].
        -- destruct (Heasy Hoth eq_refl) as (Hu & first & rest & _ & Hfirst).
           unfold isUnlocked. rewrite Hu, Hfirst. split; [done|]. by eexists.
        -- destruct (Hhard' Hoth eq_refl) as (Hu & first & rest & _ & Hfirst).
           unfold isUnlocked. rewrite Hu, Hfirst. split; [done|]. by eexists.
      * apply Hlast; [done|]. rewrite Hlen1. done.
Qed.

(** X19. Playing the levels of a difficulty in order from the first never
    gets stuck: when the hard and insane lists have levels, every call of
    [completeLevel] returns, the levels played are completed, the level
    after the last one played is unlocked, and after the last level of easy
    (hard) the hard (insane) tab is open with its first level unlocked. *)
Theorem levels_in_order p d results :
  hard (levels p) ≠ [] → insane (levels p) ≠ [] →
  (length results ≤ length (levelsOf (levels p) d))%nat →
  ∃ p', completeInOrder p d 0 results = Ok p'
    ∧ (∀ j l, levelsOf (levels p') d !! j = Some l → (j < length results)%nat →
              lp_completed l = true)
    ∧ (results ≠ [] →
       ∀ l, levelsOf (levels p') d !! length results = Some l → lp_unlocked l = true)
    ∧ (results ≠ [] → length results = length (levelsOf (levels p) d) →
       match d with
       | Easy =>
           isUnlocked p' Hard = true
           ∧ ∃ first, level_at (hard (levels p')) 0 = Some first
                      ∧ lp_unlocked first = true
       | Hard =>
           isUnlocked p' Insane = true
           ∧ ∃ first, level_at (insane (levels p')) 0 = Some first
                      ∧ lp_unlocked first = true
       | Insane => True
       end).
Proof.
  intros Hhard Hinsane Hlen.
  destruct (completeInOrder_from results p d 0) as (p' & Hp' & _ & Hdone & Hnext & Hlast);
    [done | done | done | lia | intros; lia |].
  exists p'. split_and!; [done | | |].
  - intros j l Hl Hj. apply (Hdone j l Hl). lia.
  - intros Hne l Hl. apply (Hnext Hne l). apply level_at_Some.
    split; [lia|]. by rewrite Z.add_0_l, Nat2Z.id.
  - intros Hne Hall. apply (Hlast Hne). lia.
Qed.

Lemma levels_in_order_witness :
  ∃ p', completeInOrder createDefaultGameProgress Easy 0 (replicate 5 (3, 100, 1)) = Ok p'
    ∧ (∀ j l, levelsOf (levels p') Easy !! j = Some l →
              (j < length (replicate 5 (3, 100, 1)))%nat → lp_completed l = true)
    ∧ (replicate 5 (3, 100, 1) ≠ [] →
       ∀ l, levelsOf (levels p') Easy !! length (replicate 5 (3, 100, 1)) = Some l →
            lp_unlocked l = true)
    ∧ (replicate 5 (3, 100, 1) ≠ [] →
       length (replicate 5 (3, 100, 1))
       = length (levelsOf (levels createDefaultGameProgress) Easy) →
       isUnlocked p' Hard = true
       ∧ ∃ first, level_at (hard (levels p')) 0 = Some first
                  ∧ lp_unlocked first = true).
Proof.
  apply (levels_in_order createDefaultGameProgress Easy (replicate 5 (3, 100, 1))).
  - discriminate.
  - discriminate.
  - simpl. lia.
Defined.

(** ** A whole game: frames, buttons and swipes *)


Lemma handleTouchEnd_id cfg st x0 y0 x1 y1 now now' :
  handleTouchEnd cfg st x0 y0 x1 y1 now now' = Ok st.
Proof.
  unfold handleTouchEnd. destruct (swipeMove _ _ _ _ _) as [d|]; [|done].
  unfold movePlayerSeen. by rewrite (bool_decide_true (length [] = 0%nat)), orb_true_r.
Qed.


(** Induction over a whole game on the maze [g]. *)
Lemma run_ind cfg g (I : Game → Prop) :
  wf_grid (size cfg) g →
  (∀ st, I st → maze st = g ∧ inside (size cfg) (playerPos st)) →
  (∀ st d now now', I st → accepted cfg st d now →
     I (moved_to cfg st (neighbor (playerPos st) d) now now')) →
  (∀ st, I st → 0 < timeLimit cfg → gameState st ≠ Lost → I (setGameState Lost st)) →
  ∀ events st, I st → ∃ st', run cfg st events = Ok st' ∧ I st'.
Proof.
  intros Hwf Hok Hstep Hlost.
  assert (Hmove : ∀ st d now now', I st →
            ∃ st1, attemptMove cfg st d now now' = Ok st1 ∧ I st1
                   ∧ startTime st1 = startTime st
                   ∧ (gameState st = Playing → gameState st1 ≠ Lost)).
  { intros st d now now' HI.
    destruct (decide (accepted cfg st d now)) as [Hacc|Hno].
    - rewrite (attemptMove_accepted _ _ _ _ _ Hacc). eexists.
      split_and!; [done | by apply Hstep | |].
      + by destruct (moved_to_fields cfg st (neighbor (playerPos st) d) now now')
          as (_ & _ & _ & _ & _ & -> & _).
      + intros Hplaying.
        destruct (moved_to_fields cfg st (neighbor (playerPos st) d) now now')
          as (_ & _ & _ & _ & _ & _ & ->).
        rewrite Hplaying. by case_bool_decide.
    - rewrite attemptMove_not_accepted; [|done|].
      + exists st. split_and!; try done. by intros ->.
      + destruct (Hok st HI) as [-> Hin].
        destruct (wf_grid_inside _ _ _ Hwf Hin) as (c & -> & _). by eexists. }
  induction events as [|e rest IH]; intros st HI; [by exists st|].
  cbn [run]. destruct e as [keys now now' clock|d now now'|x0 y0 x1 y1 now now'];
    cbn [step].
  - destruct (bool_decide_reflect (gameState st = Playing)) as [Hplaying|];
      [|by apply IH].
    unfold loop.
    assert (∃ st1, match loopInput keys with
                   | Some d => attemptMove cfg st d now now'
                   | None => Ok st
                   end = Ok st1
              ∧ I st1 ∧ gameState st1 ≠ Lost) as (st1 & -> & HI1 & Hstate1).
    { destruct (loopInput keys) as [d|].
      - destruct (Hmove st d now now' HI) as (st1 & ? & ? & _ & ?). eauto.
      - exists st. split_and!; try done. by rewrite Hplaying. }
    cbn [mbind result_bind].
    destruct (_ && _) eqn:Htime; cbn [mbind result_bind fr_game]; apply IH; [|done].
    apply andb_true_iff in Htime as [Hlimit _]. apply Hlost; [done | lia | done].
  - destruct (Hmove st d now now' HI) as (st1 & -> & HI1 & _).
    cbn [mbind result_bind]. by apply IH.
  - rewrite handleTouchEnd_id. cbn [mbind result_bind]. by apply IH.
Qed.

(** X4. In a whole game from the start on a maze of size two or more,
    through any frames of the loop, clicks on the arrow buttons and swipes:
    nothing throws, the maze is never modified and the player stays in the
    grid; a won game has the player on the goal cell, a game still being
    played never has, and a game is lost only under a positive time limit. A
    lost game may have the player on the goal cell; it is won or lost as soon
    as the player is there. *)
Theorem run_won_on_goal cfg g lastMove now0 events :
  wf_grid (size cfg) g → 2 ≤ size cfg →
  ∃ st', run cfg (newGame g lastMove now0) events = Ok st'
    ∧ maze st' = g
    ∧ inside (size cfg) (playerPos st')
    ∧ (gameState st' = Won → playerPos st' = goal cfg)
    ∧ (gameState st' = Playing ↔ playerPos st' ≠ goal cfg ∧ gameState st' ≠ Lost)
    ∧ (gameState st' = Lost → 0 < timeLimit cfg).
Proof.
  intros Hwf Hsize.
  destruct (run_ind cfg g
    (λ st, (maze st = g ∧ inside (size cfg) (playerPos st))
           ∧ (gameState st = Won → playerPos st = goal cfg)
           ∧ (gameState st = Playing → playerPos st ≠ goal cfg)
           ∧ (gameState st = Lost → 0 < timeLimit cfg))
    Hwf) with (events := events) (st := newGame g lastMove now0)
    as (st' & Hrun & [Hmaze Hin] & Hwon & Hplaying & Hlost).
  - by intros st [? _].
  - intros st d now now' ([Hmaze Hin] & _ & _ & _) (Hplaying & _ & Hin' & _).
    destruct (moved_to_fields cfg st (neighbor (playerPos st) d) now now')
      as (-> & -> & _ & _ & _ & _ & ->).
    rewrite Hplaying. split_and!; [done | done | | |]; by case_bool_decide.
  - intros st ([Hmaze Hin] & _) Hlimit _. simpl. by split_and!.
  - simpl. split_and!; [done | unfold inside; simpl; lia | done | | done].
    intros _. unfold goal. intros [=]. lia.
  - exists st'. split_and!; try done. split.
    + intros H. split; [by apply Hplaying | by rewrite H].
    + intros [Hne Hnl]. destruct (gameState st'); [done | | done].
      by destruct Hne; apply Hwon.
Qed.

Lemma run_won_on_goal_witness :
  ∃ st', run (mkConfig 3 40 Infinity) (newGame sample_maze 0 0)
           [FrameEvent {[ "s"%string ]} 1000 1000 1000;
            SwipeEvent 0 0 100 0 1500 1500;
            ButtonEvent Right 2000 2000;
            FrameEvent ∅ 50000 50000 50000] = Ok st'
    ∧ maze st' = sample_maze
    ∧ inside 3 (playerPos st')
    ∧ (gameState st' = Won → playerPos st' = goal (mkConfig 3 40 Infinity))
    ∧ (gameState st' = Playing ↔
         playerPos st' ≠ goal (mkConfig 3 40 Infinity) ∧ gameState st' ≠ Lost)
    ∧ (gameState st' = Lost → 0 < 40).
Proof.
  apply (run_won_on_goal (mkConfig 3 40 Infinity) sample_maze 0 0).
  - apply sample_maze_spec.
  - simpl. lia.
Defined.



(** ** Winning against the clock *)

Lemma walk_suffix (R : relation Position) x b p a :
  walk R x b p → a ∈ p → ∃ pre q, p = pre ++ q ∧ walk R a b q.
Proof.
  induction 1 as [x|x y b p' Hxy Hwalk IH]; intros Ha.
  - apply list_elem_of_singleton in Ha as ->. exists [], [x]. split; [done | constructor].
  - apply elem_of_cons in Ha as [->|Ha].
    + exists [], (x :: p'). split; [done | by econstructor].
    + destruct (IH Ha) as (pre & q & -> & Hq). by exists (x :: pre), q.
Qed.

(** Two connected vertices are joined by a walk that repeats no vertex. *)
Lemma rtc_simple_walk (R : relation Position) a b :
  rtc R a b → ∃ p, walk R a b p ∧ NoDup p.
Proof.
  induction 1 as [a|a b' b Hab _ (p & Hwalk & Hnodup)].
  - exists [a]. split; [constructor | apply NoDup_singleton].
  - destruct (decide (a ∈ p)) as [Hin|Hout].
    + destruct (walk_suffix R _ _ _ _ Hwalk Hin) as (pre & q & -> & Hq).
      exists q. split; [done|]. by apply NoDup_app in Hnodup as (_ & _ & ?).
    + exists (a :: p). split; [by econstructor | by apply NoDup_cons].
Qed.

Lemma walk_inside size g a b p :
  wf_grid size g → walk (linked g) a b p → inside size a →
  ∀ x, x ∈ p → inside size x.
Proof.
  intros Hwf. induction 1 as [a|a b c p Hab Hwalk IH]; intros Ha x Hx.
  - by apply list_elem_of_singleton in Hx as ->.
  - apply elem_of_cons in Hx as [->|Hx]; [done|].
    apply IH; [|done]. by destruct (linked_inside _ _ _ _ Hwf Hab).
Qed.

Lemma loopInput_arrowKey d : loopInput {[ arrowKey d ]} = Some d.
Proof. destruct d; by vm_compute. Qed.

Lemma frames_from_mono t t' events :
  t ≤ t' → frames_from t' events → frames_from t events.
Proof.
  intros Ht. destruct events as [|[keys now now' clock| |] rest]; simpl; try done.
  intros (? & ? & ? & ?). split_and!; try done. lia.
Qed.

(** A frame in which the held key asks for a move that is accepted, with
    time left on the clock. *)
Lemma step_frame_accepted cfg st keys d now now' clock :
  loopInput keys = Some d → accepted cfg st d now →
  timeLimit cfg ≤ 0 ∨ clock - startTime st < 1000 * timeLimit cfg →
  step cfg st (FrameEvent keys now now' clock)
  = Ok (moved_to cfg st (neighbor (playerPos st) d) now now').
Proof.
  intros Hkey Hacc Htime. cbn [step].
  rewrite (bool_decide_true (gameState st = Playing)) by apply Hacc.
  unfold loop. rewrite Hkey, (attemptMove_accepted _ _ _ _ _ Hacc).
  cbn [mbind result_bind].
  destruct (moved_to_fields cfg st (neighbor (playerPos st) d) now now')
    as (_ & _ & _ & _ & _ & -> & _).
  assert ((0 <? timeLimit cfg) && (1000 * timeLimit cfg <=? clock - startTime st) = false)
    as -> by (apply andb_false_iff; lia).
  done.
Qed.

(** Following a walk to the goal, one accepted move per frame, a frame
    every MOVE_COOLDOWN milliseconds. *)
Lemma walk_frames cfg g a t p :
  walk (linked g) a t p → t = goal cfg → a ≠ goal cfg →
  wf_grid (size cfg) g →
  ∀ st T, maze st = g → playerPos st = a → gameState st = Playing →
    lastMoveTime st + MOVE_COOLDOWN ≤ T →
    timeLimit cfg ≤ 0
    ∨ T + MOVE_COOLDOWN * (Z.of_nat (length p) - 2) - startTime st < 1000 * timeLimit cfg →
    ∃ events st', frames_from T events
                  ∧ run cfg st events = Ok st' ∧ gameState st' = Won.
Proof.
  induction 1 as [a|a b t p' Hab Hwalk IH]; intros -> Hne Hwf st T Hmaze Hpos Hplaying Hcool Htime;
    [done|].
  destruct (walk_first _ _ _ _ Hwalk) as [p'' ->].
  destruct (linked_inside _ _ _ _ Hwf Hab) as [_ Hb].
  destruct Hab as (d & -> & [Hw _]%andb_true_iff). cbn [fst snd] in Hw.
  apply negb_true_iff in Hw.
  assert (accepted cfg st d T) as Hacc.
  { split_and!; [done | lia | by rewrite Hpos | by rewrite Hmaze, Hpos]. }
  cbn [length] in Htime. unfold MOVE_COOLDOWN in *.
  assert (step cfg st (FrameEvent {[ arrowKey d ]} T T T)
          = Ok (moved_to cfg st (neighbor (playerPos st) d) T T)) as Hframe.
  { apply step_frame_accepted; [apply loopInput_arrowKey | done | lia]. }
  destruct (moved_to_fields cfg st (neighbor (playerPos st) d) T T)
    as (Hmaze1 & Hpos1 & _ & _ & Hlast1 & Hstart1 & Hstate1).
  destruct (decide (neighbor a d = goal cfg)) as [Hgoal|Hgoal].
  - eexists [FrameEvent {[ arrowKey d ]} T T T], _.
    cbn [run]. rewrite Hframe. cbn [mbind result_bind].
    split_and!; [simpl; lia | done |].
    rewrite Hstate1, Hpos. by rewrite bool_decide_true.
  - destruct (IH eq_refl Hgoal Hwf
                (moved_to cfg st (neighbor (playerPos st) d) T T) (T + 150))
      as (events & st' & Hframes & Hrun & Hwon).
    + by rewrite Hmaze1.
    + by rewrite Hpos1, Hpos.
    + rewrite Hstate1, Hpos. by rewrite bool_decide_false.
    + rewrite Hlast1. lia.
    + rewrite Hstart1. cbn [length]. lia.
    + exists (FrameEvent {[ arrowKey d ]} T T T :: events), st'.
      cbn [run]. rewrite Hframe. cbn [mbind result_bind].
      split_and!; [|done..]. simpl. split_and!; try lia.
      apply (frames_from_mono _ (T + 150)); [lia | done].
Qed.

(** X7. Every maze generateMaze builds for a size of two or more can be won
    against the clock, through the game loop, by a player who holds the
    right arrow key in a frame every MOVE_COOLDOWN milliseconds, provided
    there is no time limit or the limit leaves time for [size * size - 1]
    moves (150 ms each). This covers the easy setting (no limit) and the
    hard one (17 by 17, 60 s). The condition fails for the insane setting
    (23 by 23, 40 s), where 528 moves of 150 ms take longer than the limit,
    and nothing is said about it. *)
Theorem generated_maze_winnable difficulty cfg rng lastMove now0 :
  2 ≤ size cfg →
  timeLimit cfg ≤ 0
  ∨ MOVE_COOLDOWN * (size cfg * size cfg - 1) < 1000 * timeLimit cfg →
  lastMove ≤ now0 →
  ∃ g, (∀ fuel, 2 * size cfg * size cfg ≤ Z.of_nat fuel →
          generateMaze fuel difficulty (size cfg) rng = Ok g)
    ∧ ∃ events st', frames_from now0 events
                    ∧ run cfg (newGame g lastMove now0) events = Ok st'
                    ∧ gameState st' = Won.
Proof.
  intros Hsize Htime Hlast.
  destruct (generateMaze_total difficulty (size cfg) rng) as (g & Hg & Hwf & _ & _ & Hconn);
    [lia|].
  exists g. split; [done|].
  assert (inside (size cfg) (mkPos 0 0)) as Hstart by (unfold inside; simpl; lia).
  assert (inside (size cfg) (goal cfg)) as Hgoal by (unfold inside, goal; simpl; lia).
  destruct (rtc_simple_walk _ _ _ (Hconn _ _ Hstart Hgoal)) as (p & Hwalk & Hnodup).
  pose proof (length_inside_le (size cfg) p Hnodup
                (walk_inside _ _ _ _ _ Hwf Hwalk Hstart)) as Hlen.
  rewrite length_all_cells in Hlen.
  assert (Z.of_nat (length p) ≤ size cfg * size cfg) as Hlen' by nia.
  destruct (walk_frames cfg g _ _ _ Hwalk eq_refl) with
    (st := newGame g lastMove now0) (T := now0 + 150)
    as (events & st' & Hframes & Hrun & Hwon); try done.
  - unfold goal. intros [=]. lia.
  - simpl. unfold MOVE_COOLDOWN. lia.
  - simpl. unfold MOVE_COOLDOWN in *. lia.
  - exists events, st'. split_and!; [|done..].
    apply (frames_from_mono _ (now0 + 150)); [lia | done].
Qed.

Lemma generated_maze_winnable_witness :
  ∃ g, (∀ fuel, 2 * size (config Hard) * size (config Hard) ≤ Z.of_nat fuel →
          generateMaze fuel Hard (size (config Hard)) sample_rng = Ok g)
    ∧ ∃ events st', frames_from 1000 events
                    ∧ run (config Hard) (newGame g 0 1000) events = Ok st'
                    ∧ gameState st' = Won.
Proof.
  apply (generated_maze_winnable Hard (config Hard) sample_rng 0 1000).
  - simpl. lia.
  - right. vm_compute. reflexivity.
  - lia.
Defined.
